(** * Tic-Tac-Toe: the board model and the alpha-beta search of [script.js]

    A shallow embedding of the game logic of [src/script.js]
    ([initialState], [player], [actions], [result], [winner], [terminal],
    [utility], [minimax], [minValue], [maxValue]) and the proofs of the
    properties its specification states about them.  The rendering code
    ([drawBoard], [startGame]) is not modelled, except for the cells that
    [winner] highlights. *)

From Stdlib Require Import ZArith List Bool Lia Arith Sorted.
Import ListNotations.

Open Scope Z_scope.

(* ================================================================== *)
(** ** Values *)

(** The three cell contents: the constants [EMPTY = ''], [X = 'X'] and
    [O = 'O'] of the script. *)
Inductive mark : Type := EMPTY | X | O.

Definition mark_eqb (a b : mark) : bool :=
  match a, b with
  | EMPTY, EMPTY | X, X | O, O => true
  | _, _ => false
  end.

(** A JavaScript slot that may hold [undefined], [null] or a proper value. *)
Inductive nullable (A : Type) : Type :=
| Undefined
| Null
| Val (a : A).
Arguments Undefined {A}.
Arguments Null {A}.
Arguments Val {A} a.

(** Strict equality [===] on slots holding marks. *)
Definition strict_eq (a b : nullable mark) : bool :=
  match a, b with
  | Undefined, Undefined => true
  | Null, Null => true
  | Val m, Val n => mark_eqb m n
  | _, _ => false
  end.

(** Truthiness of such a slot: [undefined], [null] and the empty string are
    falsy, ['X'] and ['O'] are truthy. *)
Definition truthy (v : nullable mark) : bool :=
  match v with
  | Val X | Val O => true
  | _ => false
  end.

(** The numbers of the search: [-Infinity], an integer, [Infinity]. *)
Inductive num : Type := NegInf | Fin (z : Z) | PosInf.

Definition num_ltb (a b : num) : bool :=
  match a, b with
  | NegInf, NegInf => false
  | NegInf, _ => true
  | Fin _, NegInf => false
  | Fin x, Fin y => x <? y
  | Fin _, PosInf => true
  | PosInf, _ => false
  end.

Definition num_leb (a b : num) : bool := negb (num_ltb b a).

(** [Math.min] and [Math.max]. *)
Definition num_min (a b : num) : num := if num_ltb b a then b else a.
Definition num_max (a b : num) : num := if num_ltb a b then b else a.

(** The exceptions a call can raise: the [Error('Invalid Action!')] thrown by
    [result], and the [TypeError] of indexing [undefined]. *)
Inductive error : Type := InvalidAction | TypeError.

(** The result of running a function: a returned value, a thrown exception,
    or recursion cut off by the fuel of the model. *)
Inductive comp (A : Type) : Type :=
| Ret (a : A)
| Throw (e : error)
| NoFuel.
Arguments Ret {A} a.
Arguments Throw {A} e.
Arguments NoFuel {A}.

Definition bind {A B : Type} (c : comp A) (k : A -> comp B) : comp B :=
  match c with
  | Ret a => k a
  | Throw e => Throw e
  | NoFuel => NoFuel
  end.

Notation "x <- c ;; k" := (bind c (fun x => k))
  (at level 61, c at next level, right associativity).

Fixpoint mapM {A B : Type} (f : A -> comp B) (l : list A) : comp (list B) :=
  match l with
  | [] => Ret []
  | a :: rest => b <- f a ;; bs <- mapM f rest ;; Ret (b :: bs)
  end.

(* ================================================================== *)
(** ** The board *)

Definition row : Type := list mark.
Definition board : Type := list row.

(** A move [[i, j]]. *)
Definition action : Type := (Z * Z)%type.

Definition initialState : board :=
  [ [EMPTY; EMPTY; EMPTY];
    [EMPTY; EMPTY; EMPTY];
    [EMPTY; EMPTY; EMPTY] ].

(** The inner loop of [player]: [count++] for every non-empty cell. *)
Fixpoint count_row (cells : row) (count : nat) : nat :=
  match cells with
  | [] => count
  | cell :: rest =>
      count_row rest (if mark_eqb cell EMPTY then count else S count)
  end.

Fixpoint count_board (rows : board) (count : nat) : nat :=
  match rows with
  | [] => count
  | r :: rest => count_board rest (count_row r count)
  end.

Definition player (b : board) : mark :=
  if Nat.even (count_board b 0) then X else O.

(** The loops of [actions]: [moves.push([i, j])] for every empty cell, rows
    from [i], columns from [j]. *)
Fixpoint actions_row (i j : Z) (cells : row) : list action :=
  match cells with
  | [] => []
  | cell :: rest =>
      if mark_eqb cell EMPTY
      then (i, j) :: actions_row i (j + 1) rest
      else actions_row i (j + 1) rest
  end.

Fixpoint actions_from (i : Z) (rows : board) : list action :=
  match rows with
  | [] => []
  | r :: rest => actions_row i 0 r ++ actions_from (i + 1) rest
  end.

Definition actions (b : board) : list action := actions_from 0 b.

(** [board[x][y]]: indexing a missing row raises, a missing cell of an
    existing row reads [undefined]. *)
Definition read (b : board) (x y : Z) : comp (nullable mark) :=
  if x <? 0 then Throw TypeError else
  match nth_error b (Z.to_nat x) with
  | None => Throw TypeError
  | Some r =>
      if y <? 0 then Ret Undefined else
      match nth_error r (Z.to_nat y) with
      | None => Ret Undefined
      | Some cell => Ret (Val cell)
      end
  end.

Fixpoint set_nth {A : Type} (n : nat) (f : A -> A) (l : list A) : list A :=
  match l, n with
  | [], _ => []
  | a :: rest, 0%nat => f a :: rest
  | a :: rest, S k => a :: set_nth k f rest
  end.

(** [b[x][y] = m] on a copy of [b].  [result] reaches its assignment only
    after having read an empty cell at [x], [y], so the position exists. *)
Definition write (b : board) (x y : Z) (m : mark) : board :=
  set_nth (Z.to_nat x) (set_nth (Z.to_nat y) (fun _ => m)) b.

Definition acceptableValues : list Z := [0; 1; 2].

Definition includes (l : list Z) (v : Z) : bool := existsb (Z.eqb v) l.

Definition result (b : board) (a : action) : comp board :=
  let '(x, y) := a in
  if negb (includes acceptableValues x) || negb (includes acceptableValues y)
  then Throw InvalidAction
  else
    cell <- read b x y ;;
    if negb (strict_eq cell (Val EMPTY))
    then Throw InvalidAction
    else
      let resultBoard := map (fun r : row => r) b in
      Ret (write resultBoard x y (player resultBoard)).

Definition winningConditions : list (list action) :=
  [ [(0, 0); (0, 1); (0, 2)];
    [(1, 0); (1, 1); (1, 2)];
    [(2, 0); (2, 1); (2, 2)];
    [(0, 0); (1, 0); (2, 0)];
    [(0, 1); (1, 1); (2, 1)];
    [(0, 2); (1, 2); (2, 2)];
    [(0, 0); (1, 1); (2, 2)];
    [(0, 2); (1, 1); (2, 0)] ].

(** [cells.every(cell => cell !== EMPTY && cell === cells[0])]. *)
Definition every_same (cells : list (nullable mark)) : bool :=
  forallb (fun cell => negb (strict_eq cell (Val EMPTY))
                       && strict_eq cell (hd Undefined cells)) cells.

(** The loop of [winner].  Besides the returned value the model keeps the
    cells whose display the function highlights; the display is taken to have
    its nine cells, which [drawBoard] creates before any call of [winner]. *)
Fixpoint winner_loop (b : board) (conditions : list (list action))
  : comp (nullable mark * list action) :=
  match conditions with
  | [] => Ret (Null, [])
  | condition :: rest =>
      cells <- mapM (fun c : action => read b (fst c) (snd c)) condition ;;
      if every_same cells
      then Ret (hd Undefined cells, condition)
      else winner_loop b rest
  end.

Definition winner_run (b : board) : comp (nullable mark * list action) :=
  winner_loop b winningConditions.

Definition winner (b : board) : comp (nullable mark) :=
  r <- winner_run b ;; Ret (fst r).

Definition highlighted (b : board) : comp (list action) :=
  r <- winner_run b ;; Ret (snd r).

Definition terminal (b : board) : comp bool :=
  w <- winner b ;;
  Ret (truthy w || (length (actions b) =? 0)%nat).

Definition utility (b : board) : comp Z :=
  winnerMark <- winner b ;;
  if strict_eq winnerMark (Val X) then Ret 1
  else if strict_eq winnerMark (Val O) then Ret (-1)
  else Ret 0.

(* ================================================================== *)
(** ** The search *)

(** The [for] loop of [maxValue]; [child] is the call of [minValue] with the
    fuel that is left. *)
Fixpoint max_loop (child : board -> num -> num -> comp (num * nullable action))
  (b : board) (todo : list action) (alpha beta maxVal : num)
  (bestAction : nullable action) : comp (num * nullable action) :=
  match todo with
  | [] => Ret (maxVal, bestAction)
  | a :: rest =>
      resultBoard <- result b a ;;
      r <- child resultBoard alpha beta ;;
      let minVal := fst r in
      let '(maxVal, bestAction) :=
        if num_ltb maxVal minVal then (minVal, Val a) else (maxVal, bestAction) in
      let alpha := num_max alpha maxVal in
      if num_leb beta alpha
      then Ret (maxVal, bestAction)
      else max_loop child b rest alpha beta maxVal bestAction
  end.

(** The [for] loop of [minValue]. *)
Fixpoint min_loop (child : board -> num -> num -> comp (num * nullable action))
  (b : board) (todo : list action) (alpha beta minVal : num)
  (bestAction : nullable action) : comp (num * nullable action) :=
  match todo with
  | [] => Ret (minVal, bestAction)
  | a :: rest =>
      resultBoard <- result b a ;;
      r <- child resultBoard alpha beta ;;
      let maxVal := fst r in
      let '(minVal, bestAction) :=
        if num_ltb maxVal minVal then (maxVal, Val a) else (minVal, bestAction) in
      let beta := num_min beta minVal in
      if num_leb beta alpha
      then Ret (minVal, bestAction)
      else min_loop child b rest alpha beta minVal bestAction
  end.

Fixpoint maxValue (fuel : nat) (b : board) (alpha beta : num)
  : comp (num * nullable action) :=
  match fuel with
  | 0%nat => NoFuel
  | S fuel' =>
      t <- terminal b ;;
      if t then u <- utility b ;; Ret (Fin u, Null)
      else max_loop (minValue fuel') b (actions b) alpha beta NegInf Undefined
  end
with minValue (fuel : nat) (b : board) (alpha beta : num)
  : comp (num * nullable action) :=
  match fuel with
  | 0%nat => NoFuel
  | S fuel' =>
      t <- terminal b ;;
      if t then u <- utility b ;; Ret (Fin u, Null)
      else min_loop (maxValue fuel') b (actions b) alpha beta PosInf Undefined
  end.

(** Every call of the search goes one move deeper, so one more unit of fuel
    than there are empty cells is enough. *)
Definition depth (b : board) : nat := S (length (actions b)).

Definition minimax (b : board) : comp (nullable action) :=
  t <- terminal b ;;
  if t then Ret Null
  else if mark_eqb (player b) X
       then r <- maxValue (depth b) b NegInf PosInf ;; Ret (snd r)
       else r <- minValue (depth b) b NegInf PosInf ;; Ret (snd r).

(* ================================================================== *)
(** ** The boards as objects of the heap

    A board of the script is an array of arrays, and [result] is the one
    function that allocates and assigns.  This second model of [result] keeps
    the heap, to show that the function leaves the arrays it is given as they
    are; the rest of the development works on the values. *)

Definition loc : Type := nat.

(** An array of the heap: a row of cells, or a grid of references to rows. *)
Inductive object : Type :=
| ORow (cells : row)
| OGrid (rows : list loc).

Definition heap : Type := list object.

Definition load_row (h : heap) (l : loc) : option row :=
  match nth_error h l with
  | Some (ORow r) => Some r
  | _ => None
  end.

Fixpoint load_rows (h : heap) (ls : list loc) : option board :=
  match ls with
  | [] => Some []
  | l :: rest =>
      match load_row h l, load_rows h rest with
      | Some r, Some rs => Some (r :: rs)
      | _, _ => None
      end
  end.

(** The board a reference denotes. *)
Definition load_board (h : heap) (l : loc) : option board :=
  match nth_error h l with
  | Some (OGrid ls) => load_rows h ls
  | _ => None
  end.

(** [h[l][y] = m]. *)
Definition store_cell (h : heap) (l : loc) (y : nat) (m : mark) : heap :=
  set_nth l (fun o => match o with
                      | ORow r => ORow (set_nth y (fun _ => m) r)
                      | OGrid ls => OGrid ls
                      end) h.

(** [result] on the heap: the checks, then [board.map(row => [...row])],
    which allocates a copy of every row and the array of the copies, then the
    assignment to the copy.  (In which order the fresh arrays are numbered
    is immaterial.) *)
Definition result_heap (h : heap) (boardRef : loc) (a : action)
  : heap * comp loc :=
  let '(x, y) := a in
  if negb (includes acceptableValues x) || negb (includes acceptableValues y)
  then (h, Throw InvalidAction)
  else
    match load_board h boardRef with
    | None => (h, Throw TypeError)
    | Some b =>
        match read b x y with
        | Ret cell =>
            if negb (strict_eq cell (Val EMPTY))
            then (h, Throw InvalidAction)
            else
              let rowRefs := seq (length h) (length b) in
              let h1 := h ++ map ORow b in
              let resultBoard := length h1 in
              let h2 := h1 ++ [OGrid rowRefs] in
              match load_board h2 resultBoard with
              | None => (h2, Throw TypeError)
              | Some rb =>
                  (store_cell h2 (nth (Z.to_nat x) rowRefs 0%nat)
                              (Z.to_nat y) (player rb),
                   Ret resultBoard)
              end
        | Throw e => (h, Throw e)
        | NoFuel => (h, NoFuel)
        end
    end.

(* ================================================================== *)
(** ** Notions of the specification *)

(** A well-formed board: three rows of three cells. *)
Definition wf_board (b : board) : Prop :=
  length b = 3%nat /\ Forall (fun r : row => length r = 3%nat) b.

(** The number of cells of a board that satisfy [p]. *)
Definition cells_with (p : mark -> bool) (b : board) : nat :=
  length (filter p (concat b)).

Definition indicator (p : mark -> bool) (c : mark) : nat :=
  if p c then 1%nat else 0%nat.

Definition is_empty (c : mark) : bool := mark_eqb c EMPTY.

(** The number of cells holding the mark [m]. *)
Definition count_mark (m : mark) (b : board) : nat :=
  cells_with (mark_eqb m) b.

(** The number of occupied cells. *)
Definition occupied (b : board) : nat :=
  cells_with (fun c => negb (mark_eqb c EMPTY)) b.

(** The order of the numbers of the search. *)
Definition num_lt (a b : num) : Prop :=
  match a, b with
  | NegInf, NegInf => False
  | NegInf, _ => True
  | Fin x, Fin y => x < y
  | Fin _, PosInf => True
  | _, _ => False
  end.

Definition num_le (a b : num) : Prop :=
  match a, b with
  | NegInf, _ => True
  | Fin x, Fin y => x <= y
  | _, PosInf => True
  | _, _ => False
  end.

(** What a search of a position of value [V] with the window [alpha], [beta]
    may return: the value itself when it lies inside the window, else a bound
    of it on the side of the window it left. *)
Definition ab_spec (alpha beta : num) (V r : Z) : Prop :=
  (num_le (Fin r) alpha -> V <= r)
  /\ (num_lt alpha (Fin r) -> num_lt (Fin r) beta -> V = r)
  /\ (num_le beta (Fin r) -> r <= V).

(** The move [a] can be made on [b], and [child] searches the position it
    leads to, whose value is [cv a], within every window. *)
Definition evaluates (child : board -> num -> num -> comp (num * nullable action))
  (b : board) (cv : action -> Z) (a : action) : Prop :=
  exists rb, result b a = Ret rb
    /\ forall alpha beta, num_lt alpha beta ->
         exists r act, child rb alpha beta = Ret (Fin r, act)
                       /\ ab_spec alpha beta (cv a) r.

(** The state in which the loop of [maxValue] ends, started on the moves
    [todo] with the bound [alpha], the best value [maxVal] and the best move
    [best]. *)
Definition max_loop_post (cv : action -> Z) (todo : list action)
  (alpha beta maxVal : num) (best : nullable action)
  (r : num) (act : nullable action) : Prop :=
  num_le maxVal r
  /\ (r = maxVal -> act = best)
  /\ (r = maxVal \/ exists z, r = Fin z)
  /\ (num_le r alpha -> forall a, In a todo -> num_le (Fin (cv a)) r)
  /\ (num_lt alpha r -> num_lt r beta ->
      exists pre a post,
        todo = pre ++ a :: post /\ act = Val a /\ r = Fin (cv a)
        /\ (forall c, In c pre -> cv c < cv a)
        /\ (forall c, In c post -> cv c <= cv a))
  /\ (num_le beta r -> exists a, In a todo /\ num_le r (Fin (cv a))).

(** The same for the loop of [minValue]. *)
Definition min_loop_post (cv : action -> Z) (todo : list action)
  (alpha beta minVal : num) (best : nullable action)
  (r : num) (act : nullable action) : Prop :=
  num_le r minVal
  /\ (r = minVal -> act = best)
  /\ (r = minVal \/ exists z, r = Fin z)
  /\ (num_le beta r -> forall a, In a todo -> num_le r (Fin (cv a)))
  /\ (num_lt alpha r -> num_lt r beta ->
      exists pre a post,
        todo = pre ++ a :: post /\ act = Val a /\ r = Fin (cv a)
        /\ (forall c, In c pre -> cv a < cv c)
        /\ (forall c, In c post -> cv a <= cv c))
  /\ (num_le r alpha -> exists a, In a todo /\ num_le (Fin (cv a)) r).

Definition opponent (m : mark) : mark :=
  match m with
  | X => O
  | O => X
  | EMPTY => EMPTY
  end.

(** Boards obtained from the initial one by successful calls of [result]. *)
Inductive reachable : board -> Prop :=
| reach_init : reachable initialState
| reach_move b a b' :
    reachable b -> result b a = Ret b' -> reachable b'.

(** The same, every move being made on a board on which the game is not
    over. *)
Inductive legal_play : board -> Prop :=
| play_init : legal_play initialState
| play_move b a b' :
    legal_play b -> terminal b = Ret false -> result b a = Ret b' ->
    legal_play b'.

Fixpoint maximum (l : list Z) : Z :=
  match l with
  | [] => 0
  | [v] => v
  | v :: rest => Z.max v (maximum rest)
  end.

Fixpoint minimum (l : list Z) : Z :=
  match l with
  | [] => 0
  | [v] => v
  | v :: rest => Z.min v (minimum rest)
  end.

(** The value of a position under best play by both sides, without pruning:
    the utility of a finished game, else the greatest value of a move when X
    is to play and the least when O is.  (A position that is not terminal has
    a move, so the extremum is never taken over no value.) *)
Fixpoint value (fuel : nat) (b : board) : comp Z :=
  match fuel with
  | 0%nat => NoFuel
  | S fuel' =>
      t <- terminal b ;;
      if t then utility b
      else
        vs <- mapM (fun a => rb <- result b a ;; value fuel' rb) (actions b) ;;
        Ret (if mark_eqb (player b) X then maximum vs else minimum vs)
  end.

Definition game_value (b : board) : comp Z := value (depth b) b.

(** The value of the position a move leads to. *)
Definition move_value (b : board) (a : action) : comp Z :=
  rb <- result b a ;; game_value rb.

(** Both sides play the move [minimax] returns until the game is over. *)
Fixpoint self_play (fuel : nat) (b : board) : comp board :=
  match fuel with
  | 0%nat => NoFuel
  | S fuel' =>
      t <- terminal b ;;
      if t then Ret b
      else
        m <- minimax b ;;
        match m with
        | Val a => rb <- result b a ;; self_play fuel' rb
        | _ => Throw TypeError
        end
  end.


(** The content of the cell [c] of a well-formed board. *)
Definition cell_at (b : board) (c : action) : mark :=
  nth (Z.to_nat (snd c)) (nth (Z.to_nat (fst c)) b []) EMPTY.

(** A line is won when its cells are non-empty and identical. *)
Definition line_won (b : board) (l : list action) : bool :=
  match map (cell_at b) l with
  | [] => false
  | c :: rest => negb (is_empty c) && forallb (mark_eqb c) rest
  end.

(** The [winningLine] of the specification: the first of the eight lines, in
    their fixed order, that is won, and the mark that won it. *)
Definition winningLine (b : board) : option (list action * mark) :=
  match find (line_won b) winningConditions with
  | Some l => Some (l, cell_at b (hd (0, 0) l))
  | None => None
  end.

(** The [Outcome] of the specification, and its [outcome] operation. *)
Inductive Outcome : Type := XWins | OWins | Draw | InProgress.

Definition outcome (b : board) : Outcome :=
  match winningLine b with
  | Some (_, X) => XWins
  | Some (_, O) => OWins
  | _ => if (length (actions b) =? 0)%nat then Draw else InProgress
  end.

(** The scalar mapping of the outcomes; a game in progress has no score of
    its own, [utility] gives it the one of a draw. *)
Definition score (o : Outcome) : Z :=
  match o with
  | XWins => 1
  | OWins => -1
  | Draw | InProgress => 0
  end.

Definition in_range (c : action) : Prop :=
  0 <= fst c <= 2 /\ 0 <= snd c <= 2.

Definition is_triple (l : list action) : Prop :=
  exists c1 c2 c3, l = [c1; c2; c3]
                   /\ in_range c1 /\ in_range c2 /\ in_range c3.

(** The value of the position the move [a] leads to, searched with [fuel]. *)
Definition cvalue (fuel : nat) (b : board) (a : action) : Z :=
  match result b a with
  | Ret rb => match value fuel rb with Ret v => v | _ => 0 end
  | _ => 0
  end.

(** [a] is the first of [moves] of greatest value. *)
Definition first_max (cv : action -> Z) (moves : list action) (a : action)
  : Prop :=
  exists pre post, moves = pre ++ a :: post
    /\ (forall c, In c pre -> cv c < cv a)
    /\ (forall c, In c post -> cv c <= cv a).

(** [a] is the first of [moves] of least value. *)
Definition first_min (cv : action -> Z) (moves : list action) (a : action)
  : Prop :=
  exists pre post, moves = pre ++ a :: post
    /\ (forall c, In c pre -> cv a < cv c)
    /\ (forall c, In c post -> cv a <= cv c).

(** [maxValue], with one unit of fuel more than [n], searches the position
    [b] of value [V] correctly. *)
Definition max_node_ok (n : nat) (b : board) (V : Z) : Prop :=
  forall alpha beta, num_lt alpha beta ->
    exists r act,
      maxValue (S n) b alpha beta = Ret (Fin r, act)
      /\ ab_spec alpha beta V r
      /\ (terminal b = Ret false ->
          num_lt alpha (Fin r) -> num_lt (Fin r) beta ->
          exists a, act = Val a /\ cvalue n b a = V
                    /\ first_max (cvalue n b) (actions b) a).

Definition min_node_ok (n : nat) (b : board) (V : Z) : Prop :=
  forall alpha beta, num_lt alpha beta ->
    exists r act,
      minValue (S n) b alpha beta = Ret (Fin r, act)
      /\ ab_spec alpha beta V r
      /\ (terminal b = Ret false ->
          num_lt alpha (Fin r) -> num_lt (Fin r) beta ->
          exists a, act = Val a /\ cvalue n b a = V
                    /\ first_min (cvalue n b) (actions b) a).

(** The positions of the scenarios of the specification. *)
Definition board_x_to_win : board :=
  [ [X; X; EMPTY];
    [O; O; EMPTY];
    [EMPTY; EMPTY; EMPTY] ].

Definition board_x_won : board :=
  [ [X; X; X];
    [O; O; EMPTY];
    [EMPTY; EMPTY; EMPTY] ].

Definition board_drawn : board :=
  [ [X; X; O];
    [O; O; X];
    [X; O; X] ].

(** Row-major order of the cells: by row, then by column. *)
Definition row_major (a c : action) : Prop :=
  fst a < fst c \/ (fst a = fst c /\ snd a < snd c).

(** What a call hands to its caller: [null], [undefined], a mark, or a line
    with the mark that won it. *)
Inductive returned : Type :=
| RNull
| RUndefined
| RMark (m : mark)
| RLine (cells : list action) (m : mark).

Definition returned_by_winner (b : board) : comp returned :=
  w <- winner b ;;
  Ret match w with
      | Undefined => RUndefined
      | Null => RNull
      | Val m => RMark m
      end.

(** What the [winningLine] of the specification hands to its caller. *)
Definition returned_by_winningLine (b : board) : returned :=
  match winningLine b with
  | Some (l, m) => RLine l m
  | None => RNull
  end.

(* ================================================================== *)
(** ** The game on the page

    [drawBoard] and [startGame] with the part of the page they act on: the
    texts of the cells, the cells [winner] has highlighted, the two lines of
    text, the cells that listen to clicks and the calls that [setTimeout] has
    scheduled.  The wording of the texts and the names of the style classes
    are left out. *)

(** [turn.innerText]: empty, or [Current Turn:] and a mark. *)
Inductive turn_text : Type :=
| TurnNone
| TurnOf (m : mark).

(** [resultMsg.innerText]: empty, a mark and [Won!], or [TIE!]. *)
Inductive result_text : Type :=
| ResultNone
| ResultWon (m : nullable mark)
| ResultTie.

Record screen : Type := mkScreen {
  cellText : list (list (nullable mark));
  highlightLog : list action;
  turnText : turn_text;
  resultText : result_text;
  listeners : list action;
  shown : board
}.

(** The page and the boards of the scheduled calls, oldest first. *)
Record page : Type := mkPage {
  display : screen;
  timers : list board
}.

(** The cells [drawBoard] creates: in each row of the board as many as the
    board has rows, with the text [board[i][j]]. *)
Definition cell_texts (b : board) : list (list (nullable mark)) :=
  map (fun r : row =>
         map (fun j => match nth_error r j with
                       | Some c => Val c
                       | None => Undefined
                       end)
             (seq 0 (length b)))
      b.

(** The cells that get a click listener: those created, in the order of the
    document, for which [board[x][y] === EMPTY]. *)
Definition clickable_row (b : board) (i : nat) : list action :=
  flat_map (fun j =>
              match read b (Z.of_nat i) (Z.of_nat j) with
              | Ret (Val EMPTY) => [(Z.of_nat i, Z.of_nat j)]
              | _ => []
              end)
           (seq 0 (length b)).

Definition clickable (b : board) : list action :=
  flat_map (clickable_row b) (seq 0 (length b)).

(** [drawBoard]: the page it leaves, given the result text that was there,
    and the call it schedules, if any.  Each of the three calls of [winner],
    the first of them inside [terminal], highlights. *)
Definition drawBoard (msg : result_text) (b : board)
  : comp (screen * list board) :=
  let cells := cell_texts b in
  t <- terminal b ;;
  h1 <- highlighted b ;;
  if negb t
  then
    if mark_eqb (player b) O
    then Ret (mkScreen cells h1 (TurnOf (player b)) msg [] b, [b])
    else Ret (mkScreen cells h1 (TurnOf (player b)) msg (clickable b) b, [])
  else
    winnerMark <- winner b ;;
    h2 <- highlighted b ;;
    w <- winner b ;;
    h3 <- highlighted b ;;
    Ret (mkScreen cells (h1 ++ h2 ++ h3) TurnNone
                  (if truthy w then ResultWon winnerMark else ResultTie)
                  [] b,
         []).

Definition startGame (pending : list board) : comp page :=
  d <- drawBoard ResultNone initialState ;;
  Ret (mkPage (fst d) (pending ++ snd d)).

(** What can happen on the page: a click on a cell, a scheduled call that
    comes due, a click on the reset button. *)
Inductive event : Type :=
| Click (a : action)
| Timer (n : nat)
| Reset.

Definition action_eqb (a c : action) : bool :=
  (fst a =? fst c) && (snd a =? snd c).

Fixpoint remove_nth {A : Type} (n : nat) (l : list A) : list A :=
  match l, n with
  | [], _ => []
  | _ :: rest, 0%nat => rest
  | a :: rest, S k => a :: remove_nth k rest
  end.

(** The handlers.  A click on a cell without listener does nothing; the
    listener draws the board after the move and, when [result] throws, logs
    the error and leaves the page as it is.  A scheduled call draws the board
    after the move of [minimax]; what the calls of [winner] inside [minimax]
    highlight on the cells of the old board is gone when [drawBoard] replaces
    the cells.  An exception that leaves a handler after it has begun to
    redraw is kept as an exception: the model does not say what the page is
    then. *)
Definition step (p : page) (e : event) : comp page :=
  match e with
  | Reset => startGame (timers p)
  | Click a =>
      if existsb (action_eqb a) (listeners (display p))
      then
        match result (shown (display p)) a with
        | Ret rb =>
            d <- drawBoard (resultText (display p)) rb ;;
            Ret (mkPage (fst d) (timers p ++ snd d))
        | Throw _ => Ret p
        | NoFuel => NoFuel
        end
      else Ret p
  | Timer n =>
      match nth_error (timers p) n with
      | None => Ret p
      | Some b =>
          let pending := remove_nth n (timers p) in
          m <- minimax b ;;
          match m with
          | Val a =>
              rb <- result b a ;;
              d <- drawBoard (resultText (display p)) rb ;;
              Ret (mkPage (fst d) (pending ++ snd d))
          | _ => Throw TypeError
          end
      end
  end.

(** The pages the script can be in: the one it starts in, and those the
    handlers lead to. *)
Inductive running : page -> Prop :=
| run_start p : startGame [] = Ret p -> running p
| run_step p e p' : running p -> step p e = Ret p' -> running p'.

(** The page after the script has loaded. *)
Definition start_page : page :=
  mkPage (mkScreen (map (map Val) initialState) [] (TurnOf X) ResultNone
                   [(0, 0); (0, 1); (0, 2); (1, 0); (1, 1); (1, 2);
                    (2, 0); (2, 1); (2, 2)]
                   initialState)
         [].

(** Three cells in a row, a column or a diagonal hold the mark [m]. *)
Definition three_in_line (b : board) (m : mark) : Prop :=
  (exists r, 0 <= r <= 2 /\ forall c, 0 <= c <= 2 -> cell_at b (r, c) = m)
  \/ (exists c, 0 <= c <= 2 /\ forall r, 0 <= r <= 2 -> cell_at b (r, c) = m)
  \/ (forall i, 0 <= i <= 2 -> cell_at b (i, i) = m)
  \/ (forall i, 0 <= i <= 2 -> cell_at b (i, 2 - i) = m).

(** Boards obtained from the initial one by [n] successful calls of
    [result]. *)
Inductive reachable_in : nat -> board -> Prop :=
| reach_zero : reachable_in 0 initialState
| reach_succ n b a b' :
    reachable_in n b -> result b a = Ret b' -> reachable_in (S n) b'.

(** A position the side of O does not lose with best play. *)
Definition safe (b : board) : Prop :=
  wf_board b /\ exists v, game_value b = Ret v /\ v <= 0.

(** What holds of every page of the running script. *)
Definition page_ok (p : page) : Prop :=
  let d := display p in
  safe (shown d)
  /\ legal_play (shown d)
  /\ (listeners d <> [] ->
      terminal (shown d) = Ret false /\ player (shown d) = X
      /\ listeners d = actions (shown d))
  /\ resultText d <> ResultWon (Val X)
  /\ Forall (fun b => safe b /\ legal_play b
                      /\ terminal b = Ret false /\ player b = O)
            (timers p).

(** The outcome as the script tells it with its two functions: the game is
    in progress when [terminal] is false; when it is true, [utility] says
    whether X has won, O has won, or nobody. *)
Definition outcome_of_code (b : board) : comp Outcome :=
  t <- terminal b ;;
  u <- utility b ;;
  Ret (if negb t then InProgress
       else if u =? 1 then XWins
       else if u =? -1 then OWins
       else Draw).

(** The handlers run one after the other on a list of events. *)
Fixpoint run (p : page) (es : list event) : comp page :=
  match es with
  | [] => Ret p
  | e :: rest => p' <- step p e ;; run p' rest
  end.

(** A game on the page: X takes the centre, then three cells that do not
    stop O; each click is followed by the scheduled call. *)
Definition played_game : list event :=
  [Click (1, 1); Timer 0; Click (0, 1); Timer 0;
   Click (0, 2); Timer 0; Click (1, 0); Timer 0].

Definition board_centre : board :=
  [ [EMPTY; EMPTY; EMPTY];
    [EMPTY; X; EMPTY];
    [EMPTY; EMPTY; EMPTY] ].

Definition board_reply : board :=
  [ [O; EMPTY; EMPTY];
    [EMPTY; X; EMPTY];
    [EMPTY; EMPTY; EMPTY] ].

Definition board_o_won : board :=
  [ [O; X; X];
    [X; X; EMPTY];
    [O; O; O] ].

(** The page after the first click of the game, after the reply of the
    script, and at the end of the game. *)
Definition page_after_click : page :=
  mkPage (mkScreen (map (map Val) board_centre) [] (TurnOf O) ResultNone
                   [] board_centre)
         [board_centre].

Definition page_after_reply : page :=
  mkPage (mkScreen (map (map Val) board_reply) [] (TurnOf X) ResultNone
                   [(0, 1); (0, 2); (1, 0); (1, 2); (2, 0); (2, 1); (2, 2)]
                   board_reply)
         [].

Definition page_after_game : page :=
  mkPage (mkScreen (map (map Val) board_o_won)
                   [(2, 0); (2, 1); (2, 2); (2, 0); (2, 1); (2, 2);
                    (2, 0); (2, 1); (2, 2)]
                   TurnNone (ResultWon (Val O)) [] board_o_won)
         [].

(* ================================================================== *)
(** ** Marks, numbers and computations *)

Lemma mark_eqb_eq (a b : mark) : mark_eqb a b = true <-> a = b.
Proof. destruct a, b; simpl; split; congruence. Qed.

Lemma mark_eqb_refl (a : mark) : mark_eqb a a = true.
Proof. now destruct a. Qed.

Lemma strict_eq_Val (v : nullable mark) (m : mark) :
  strict_eq v (Val m) = true <-> v = Val m.
Proof.
  destruct v as [| |c]; simpl; try (split; congruence).
  rewrite mark_eqb_eq. split; congruence.
Qed.

Lemma bind_Ret {A B : Type} (c : comp A) (k : A -> comp B) (r : B) :
  bind c k = Ret r -> exists a, c = Ret a /\ k a = Ret r.
Proof. destruct c; simpl; intros H; try discriminate. eauto. Qed.

Lemma mapM_map {A B : Type} (f : A -> comp B) (g : A -> B) (l : list A) :
  (forall a, In a l -> f a = Ret (g a)) -> mapM f l = Ret (map g l).
Proof.
  induction l as [|a rest IH]; intros H; simpl; [reflexivity|].
  rewrite (H a (or_introl eq_refl)). simpl.
  rewrite IH by (intros; apply H; now right). reflexivity.
Qed.

(* ================================================================== *)
(** ** Counting cells *)

Section Counting.

Variable p : mark -> bool.

Lemma filter_set_nth (l : row) (n : nat) (old v : mark) :
  nth_error l n = Some old ->
  (length (filter p (set_nth n (fun _ => v) l)) + indicator p old
   = length (filter p l) + indicator p v)%nat.
Proof.
  unfold indicator. revert n.
  induction l as [|c rest IH]; intros [|n] H; simpl in *; try discriminate.
  - injection H as ->. destruct (p old), (p v); simpl; lia.
  - specialize (IH n H). destruct (p c); simpl; lia.
Qed.

Lemma cells_with_set_nth (b : board) (n : nat) (f : row -> row) (r : row) :
  nth_error b n = Some r ->
  (cells_with p (set_nth n f b) + length (filter p r)
   = cells_with p b + length (filter p (f r)))%nat.
Proof.
  unfold cells_with. revert n.
  induction b as [|r0 rest IH]; intros [|n] H; simpl in *; try discriminate.
  - injection H as ->. rewrite !filter_app, !length_app. lia.
  - specialize (IH n H). rewrite !filter_app, !length_app. lia.
Qed.

Lemma cells_with_write (b : board) (x y : nat) (r : row) (old v : mark) :
  nth_error b x = Some r -> nth_error r y = Some old ->
  (cells_with p (set_nth x (set_nth y (fun _ => v)) b) + indicator p old
   = cells_with p b + indicator p v)%nat.
Proof.
  intros Hr Hc.
  pose proof (cells_with_set_nth b x (set_nth y (fun _ => v)) r Hr).
  pose proof (filter_set_nth r y old v Hc) as H'.
  unfold row in *. lia.
Qed.

End Counting.

Lemma count_row_acc (cells : row) (c : nat) :
  count_row cells c
  = (c + length (filter (fun m => negb (mark_eqb m EMPTY)) cells))%nat.
Proof.
  revert c. induction cells as [|cell rest IH]; intros c; simpl; [lia|].
  rewrite IH. destruct (mark_eqb cell EMPTY); simpl; lia.
Qed.

Lemma count_board_acc (b : board) (c : nat) :
  count_board b c = (c + occupied b)%nat.
Proof.
  unfold occupied, cells_with. revert c.
  induction b as [|r rest IH]; intros c; simpl; [lia|].
  rewrite IH, count_row_acc, filter_app, length_app. lia.
Qed.

Lemma count_board_occupied (b : board) : count_board b 0 = occupied b.
Proof. now rewrite count_board_acc. Qed.

Lemma player_spec (b : board) :
  player b = if Nat.even (occupied b) then X else O.
Proof. unfold player. now rewrite count_board_occupied. Qed.

Lemma player_not_empty (b : board) : player b <> EMPTY.
Proof. unfold player. destruct (Nat.even _); discriminate. Qed.

Lemma player_cases (b : board) : player b = X \/ player b = O.
Proof. unfold player. destruct (Nat.even _); auto. Qed.

Lemma occupied_marks (b : board) :
  occupied b = (count_mark X b + count_mark O b)%nat.
Proof.
  unfold occupied, count_mark, cells_with.
  induction (concat b) as [|c rest IH]; simpl; [reflexivity|].
  destruct c; simpl; lia.
Qed.

(* ================================================================== *)
(** ** Legal moves and the cells they name *)

Lemma actions_row_length (i j : Z) (r : row) :
  length (actions_row i j r) = length (filter is_empty r).
Proof.
  revert j. induction r as [|c rest IH]; intros j; simpl; [reflexivity|].
  unfold is_empty at 1. destruct (mark_eqb c EMPTY); simpl; now rewrite IH.
Qed.

Lemma actions_length (b : board) :
  length (actions b) = cells_with is_empty b.
Proof.
  unfold actions, cells_with. generalize 0.
  induction b as [|r rest IH]; intros i; simpl; [reflexivity|].
  now rewrite length_app, filter_app, length_app, actions_row_length, IH.
Qed.

Lemma empty_or_occupied (b : board) :
  (cells_with is_empty b + occupied b = length (concat b))%nat.
Proof.
  unfold occupied, cells_with, is_empty.
  induction (concat b) as [|c rest IH]; simpl; [reflexivity|].
  destruct (mark_eqb c EMPTY); simpl; lia.
Qed.

Lemma wf_board_cells (b : board) : wf_board b -> length (concat b) = 9%nat.
Proof.
  intros [Hlen Hrows].
  destruct b as [|r0 [|r1 [|r2 [|]]]]; try discriminate.
  inversion_clear Hrows as [|? ? H0 Hrows1].
  inversion_clear Hrows1 as [|? ? H1 Hrows2].
  inversion_clear Hrows2 as [|? ? H2 _].
  simpl. rewrite !length_app. simpl. lia.
Qed.

(** [legalMoves(board).length + occupiedCellCount(board) == 9]. *)
Lemma actions_occupied (b : board) :
  wf_board b -> (length (actions b) + occupied b = 9)%nat.
Proof.
  intros Hwf. rewrite actions_length, empty_or_occupied.
  now apply wf_board_cells.
Qed.

Lemma actions_row_In (i j : Z) (r : row) (x y : Z) :
  In (x, y) (actions_row i j r)
  <-> x = i /\ j <= y /\ nth_error r (Z.to_nat (y - j)) = Some EMPTY.
Proof.
  revert j. induction r as [|c rest IH]; intros j; simpl.
  - split; [tauto|]. intros (_ & _ & H). now destruct (Z.to_nat (y - j)).
  - assert (Hstep : j + 1 <= y ->
                    Z.to_nat (y - j) = S (Z.to_nat (y - (j + 1)))) by lia.
    destruct (mark_eqb c EMPTY) eqn:E; simpl; rewrite IH; split.
    + intros [Heq | (-> & Hle & Hn)].
      * injection Heq as <- <-. repeat split; [lia|].
        replace (j - j) with 0 by lia. simpl. f_equal. now apply mark_eqb_eq.
      * repeat split; [lia|]. rewrite Hstep by lia. exact Hn.
    + intros (-> & Hle & Hn). destruct (Z.eq_dec y j) as [->|Hne]; [now left|].
      right. repeat split; [lia|]. rewrite Hstep in Hn by lia. exact Hn.
    + intros (-> & Hle & Hn). repeat split; [lia|].
      rewrite Hstep by lia. exact Hn.
    + intros (-> & Hle & Hn). destruct (Z.eq_dec y j) as [->|Hne].
      * replace (j - j) with 0 in Hn by lia. simpl in Hn.
        injection Hn as ->. discriminate.
      * repeat split; [lia|]. rewrite Hstep in Hn by lia. exact Hn.
Qed.

Lemma actions_from_In (i : Z) (b : board) (x y : Z) :
  In (x, y) (actions_from i b)
  <-> i <= x /\ 0 <= y /\
      exists r, nth_error b (Z.to_nat (x - i)) = Some r
                /\ nth_error r (Z.to_nat y) = Some EMPTY.
Proof.
  revert i. induction b as [|r0 rest IH]; intros i; simpl.
  - split; [tauto|]. intros (_ & _ & r & H & _).
    now destruct (Z.to_nat (x - i)).
  - assert (Hstep : i + 1 <= x ->
                    Z.to_nat (x - i) = S (Z.to_nat (x - (i + 1)))) by lia.
    rewrite in_app_iff, actions_row_In, IH. split.
    + intros [(-> & Hy & Hn) | (Hx & Hy & r & Hr & Hn)].
      * repeat split; [lia|lia|]. exists r0.
        replace (i - i) with 0 by lia. simpl.
        now replace (y - 0) with y in Hn by lia.
      * repeat split; [lia|lia|]. exists r. now rewrite Hstep by lia.
    + intros (Hx & Hy & r & Hr & Hn).
      destruct (Z.eq_dec x i) as [->|Hne].
      * left. replace (i - i) with 0 in Hr by lia. simpl in Hr.
        injection Hr as ->. repeat split; [lia|].
        now replace (y - 0) with y by lia.
      * right. repeat split; [lia|lia|]. exists r.
        now rewrite Hstep in Hr by lia.
Qed.

Lemma read_Val (b : board) (x y : Z) (c : mark) :
  read b x y = Ret (Val c)
  <-> 0 <= x /\ 0 <= y /\
      exists r, nth_error b (Z.to_nat x) = Some r
                /\ nth_error r (Z.to_nat y) = Some c.
Proof.
  unfold read. destruct (Z.ltb_spec x 0) as [Hx|Hx].
  { split; [discriminate|]. intros (H & _). lia. }
  destruct (nth_error b (Z.to_nat x)) as [r|].
  2:{ split; [discriminate|]. intros (_ & _ & r & H & _). discriminate. }
  destruct (Z.ltb_spec y 0) as [Hy|Hy].
  { split; [discriminate|]. intros (_ & H & _). lia. }
  destruct (nth_error r (Z.to_nat y)) as [c'|] eqn:Hc.
  - split.
    + intros H. injection H as ->. repeat split; try lia. now exists r.
    + intros (_ & _ & r' & Hr & Hc'). injection Hr as <-. congruence.
  - split; [discriminate|].
    intros (_ & _ & r' & Hr & Hc'). injection Hr as <-. congruence.
Qed.

(** The moves [actions] lists are the coordinates of the empty cells. *)
Lemma actions_In (b : board) (x y : Z) :
  In (x, y) (actions b) <-> read b x y = Ret (Val EMPTY).
Proof.
  unfold actions. rewrite actions_from_In, read_Val.
  now replace (x - 0) with x by lia.
Qed.

Lemma includes_acceptable (v : Z) :
  includes acceptableValues v = true <-> 0 <= v <= 2.
Proof.
  unfold includes, acceptableValues. simpl.
  rewrite !orb_true_iff, !Z.eqb_eq. lia.
Qed.

Lemma read_in_range (b : board) (x y : Z) (c : mark) :
  wf_board b -> read b x y = Ret (Val c) -> 0 <= x <= 2 /\ 0 <= y <= 2.
Proof.
  intros [Hlen Hrows] H. apply read_Val in H as (Hx & Hy & r & Hr & Hc).
  assert (Hin : In r b) by (eapply nth_error_In; eauto).
  rewrite Forall_forall in Hrows. specialize (Hrows r Hin).
  assert (Z.to_nat x < 3)%nat
    by (rewrite <- Hlen; apply nth_error_Some; congruence).
  assert (Z.to_nat y < 3)%nat
    by (rewrite <- Hrows; apply nth_error_Some; congruence).
  lia.
Qed.

(** When [result] returns, and what. *)
Lemma result_Ret (b : board) (x y : Z) (b' : board) :
  result b (x, y) = Ret b'
  <-> 0 <= x <= 2 /\ 0 <= y <= 2 /\ read b x y = Ret (Val EMPTY)
      /\ b' = write b x y (player b).
Proof.
  unfold result. rewrite map_id.
  destruct (includes acceptableValues x) eqn:Ex;
    [apply includes_acceptable in Ex|];
    (destruct (includes acceptableValues y) eqn:Ey;
     [apply includes_acceptable in Ey|]); simpl.
  - destruct (read b x y) as [cell| |] eqn:Er; simpl.
    + destruct (strict_eq cell (Val EMPTY)) eqn:Ec; simpl.
      * apply strict_eq_Val in Ec. subst cell. split.
        -- intros H. injection H as <-. auto.
        -- intros (_ & _ & _ & ->). reflexivity.
      * split; [discriminate|]. intros (_ & _ & H & _).
        injection H as ->. simpl in Ec. discriminate.
    + split; [discriminate|]. intros (_ & _ & H & _). discriminate.
    + split; [discriminate|]. intros (_ & _ & H & _). discriminate.
  - split; [discriminate|]. intros (_ & H & _).
    apply includes_acceptable in H. congruence.
  - split; [discriminate|]. intros (H & _).
    apply includes_acceptable in H. congruence.
  - split; [discriminate|]. intros (H & _).
    apply includes_acceptable in H. congruence.
Qed.

(** On a well-formed board the moves [result] accepts are those of
    [actions]. *)
Lemma result_accepts (b : board) (a : action) :
  wf_board b -> (In a (actions b) <-> exists b', result b a = Ret b').
Proof.
  intros Hwf. destruct a as [x y]. rewrite actions_In. split.
  - intros H. exists (write b x y (player b)). apply result_Ret.
    pose proof (read_in_range b x y EMPTY Hwf H). tauto.
  - intros [b' H]. apply result_Ret in H. tauto.
Qed.

(* ================================================================== *)
(** ** What a move changes *)

Lemma set_nth_length {A : Type} (n : nat) (f : A -> A) (l : list A) :
  length (set_nth n f l) = length l.
Proof.
  revert n. induction l as [|a rest IH]; intros [|n]; simpl; auto.
Qed.

Lemma set_nth_Forall {A : Type} (P : A -> Prop) (n : nat) (f : A -> A)
  (l : list A) :
  (forall a, P a -> P (f a)) -> Forall P l -> Forall P (set_nth n f l).
Proof.
  intros Hf. revert n.
  induction l as [|a rest IH]; intros [|n] H; simpl; auto;
    inversion_clear H; constructor; auto.
Qed.

Lemma nth_error_set_nth {A : Type} (n k : nat) (f : A -> A) (l : list A) :
  nth_error (set_nth n f l) k
  = if (n =? k)%nat then option_map f (nth_error l k) else nth_error l k.
Proof.
  revert n k. induction l as [|a rest IH]; intros n k.
  - destruct n, k; simpl; try reflexivity. now destruct (n =? k)%nat.
  - destruct n, k; simpl; auto.
Qed.

Lemma write_wf (b : board) (x y : Z) (m : mark) :
  wf_board b -> wf_board (write b x y m).
Proof.
  intros [Hlen Hrows]. unfold write. split.
  - now rewrite set_nth_length.
  - apply set_nth_Forall; [|exact Hrows].
    intros r Hr. now rewrite set_nth_length.
Qed.

(** Reading a board after an assignment to an existing cell. *)
Lemma read_write (b : board) (x y : Z) (m : mark) (x' y' : Z) (old : mark) :
  read b x y = Ret (Val old) ->
  read (write b x y m) x' y'
  = if (x' =? x) && (y' =? y) then Ret (Val m) else read b x' y'.
Proof.
  intros H. apply read_Val in H as (Hx & Hy & r & Hr & Hc).
  unfold read, write.
  destruct (Z.ltb_spec x' 0) as [Hx'|Hx'].
  { destruct (Z.eqb_spec x' x); [lia|reflexivity]. }
  rewrite nth_error_set_nth.
  destruct (Nat.eqb_spec (Z.to_nat x) (Z.to_nat x')) as [E|E].
  - assert (x' = x) by lia. subst x'. rewrite Z.eqb_refl, Hr. simpl.
    destruct (Z.ltb_spec y' 0) as [Hy'|Hy'].
    { destruct (Z.eqb_spec y' y); [lia|reflexivity]. }
    rewrite nth_error_set_nth.
    destruct (Nat.eqb_spec (Z.to_nat y) (Z.to_nat y')) as [F|F].
    + assert (y' = y) by lia. subst y'. rewrite Z.eqb_refl, Hc. reflexivity.
    + destruct (Z.eqb_spec y' y); [subst; congruence|reflexivity].
  - destruct (Z.eqb_spec x' x); [subst; congruence|reflexivity].
Qed.

Lemma result_cells_with (p : mark -> bool) (b : board) (a : action)
  (b' : board) :
  result b a = Ret b' ->
  (cells_with p b' + indicator p EMPTY
   = cells_with p b + indicator p (player b))%nat.
Proof.
  destruct a as [x y]. intros H.
  apply result_Ret in H as (_ & _ & Hr & ->).
  apply read_Val in Hr as (_ & _ & r & Hr & Hc).
  unfold write. eapply cells_with_write; eauto.
Qed.

Lemma result_wf (b : board) (a : action) (b' : board) :
  wf_board b -> result b a = Ret b' -> wf_board b'.
Proof.
  destruct a as [x y]. intros Hwf H.
  apply result_Ret in H as (_ & _ & _ & ->). now apply write_wf.
Qed.

Lemma result_occupied (b : board) (a : action) (b' : board) :
  result b a = Ret b' -> occupied b' = S (occupied b).
Proof.
  intros H.
  pose proof (result_cells_with (fun c => negb (mark_eqb c EMPTY)) b a b' H)
    as Hc.
  fold (occupied b') (occupied b) in Hc. unfold indicator in Hc.
  simpl in Hc. destruct (player b) eqn:E; simpl in Hc; try lia.
  now apply player_not_empty in E.
Qed.

Lemma result_player (b : board) (a : action) (b' : board) :
  result b a = Ret b' -> player b' = opponent (player b).
Proof.
  intros H. rewrite !player_spec, (result_occupied b a b' H).
  rewrite Nat.even_succ. unfold Nat.odd.
  now destruct (Nat.even (occupied b)).
Qed.

Lemma result_actions_length (b : board) (a : action) (b' : board) :
  result b a = Ret b' -> length (actions b) = S (length (actions b')).
Proof.
  intros H. rewrite !actions_length.
  pose proof (result_cells_with is_empty b a b' H) as Hc.
  unfold indicator in Hc. simpl in Hc.
  destruct (player b) eqn:E; simpl in Hc; try lia.
  now apply player_not_empty in E.
Qed.

Lemma result_count_mark (b : board) (a : action) (b' : board) (m : mark) :
  result b a = Ret b' -> m <> EMPTY ->
  count_mark m b'
  = ((if mark_eqb m (player b) then 1 else 0) + count_mark m b)%nat.
Proof.
  intros H Hm.
  pose proof (result_cells_with (mark_eqb m) b a b' H) as Hc.
  fold (count_mark m b') (count_mark m b) in Hc. unfold indicator in Hc.
  destruct (mark_eqb m EMPTY) eqn:E; [now apply mark_eqb_eq in E|].
  destruct (mark_eqb m (player b)); lia.
Qed.

(* ================================================================== *)
(** ** The winner *)

Lemma read_cell_at (b : board) (c : action) :
  wf_board b -> in_range c -> read b (fst c) (snd c) = Ret (Val (cell_at b c)).
Proof.
  intros [Hlen Hrows] [Hx Hy]. apply read_Val. repeat split; try lia.
  unfold cell_at.
  assert (Hx' : (Z.to_nat (fst c) < length b)%nat) by lia.
  exists (nth (Z.to_nat (fst c)) b []). split.
  - now apply nth_error_nth'.
  - apply nth_error_nth'.
    rewrite Forall_forall in Hrows. rewrite Hrows; [lia|now apply nth_In].
Qed.

Lemma every_same_triple (m1 m2 m3 : mark) :
  every_same [Val m1; Val m2; Val m3]
  = negb (is_empty m1) && (mark_eqb m1 m2 && (mark_eqb m1 m3 && true)).
Proof. now destruct m1, m2, m3. Qed.

Lemma winner_loop_spec (b : board) (conditions : list (list action)) :
  wf_board b -> Forall is_triple conditions ->
  winner_loop b conditions
  = Ret match find (line_won b) conditions with
        | Some l => (Val (cell_at b (hd (0, 0) l)), l)
        | None => (Null, [])
        end.
Proof.
  intros Hwf. induction 1 as [|l rest (c1 & c2 & c3 & -> & H1 & H2 & H3) _ IH].
  - reflexivity.
  - simpl. rewrite !read_cell_at by assumption. simpl.
    rewrite every_same_triple. unfold line_won. simpl.
    destruct (negb (is_empty (cell_at b c1)) && _); [reflexivity|exact IH].
Qed.

Lemma winningConditions_triples : Forall is_triple winningConditions.
Proof.
  unfold winningConditions.
  repeat (constructor;
          [do 3 eexists; split; [reflexivity|unfold in_range; simpl; lia]|]).
  constructor.
Qed.

(** What [winner] returns and highlights on a well-formed board. *)
Lemma winner_run_spec (b : board) :
  wf_board b ->
  winner_run b = Ret match winningLine b with
                     | Some (l, m) => (Val m, l)
                     | None => (Null, [])
                     end.
Proof.
  intros Hwf. unfold winner_run, winningLine.
  rewrite winner_loop_spec by (auto using winningConditions_triples).
  now destruct (find (line_won b) winningConditions).
Qed.

Lemma winningLine_mark (b : board) (l : list action) (m : mark) :
  winningLine b = Some (l, m) -> m = X \/ m = O.
Proof.
  unfold winningLine.
  destruct (find (line_won b) winningConditions) as [l'|] eqn:E;
    [|discriminate].
  intros H. injection H as <- <-. apply find_some in E as [_ E].
  unfold line_won in E. destruct l' as [|c rest]; [discriminate|].
  simpl in *. destruct (cell_at b c); auto. discriminate.
Qed.

Lemma winner_spec (b : board) :
  wf_board b ->
  winner b = Ret match winningLine b with
                 | Some (_, m) => Val m
                 | None => Null
                 end.
Proof.
  intros Hwf. unfold winner. rewrite winner_run_spec by assumption.
  simpl. now destruct (winningLine b) as [[l m]|].
Qed.

Lemma terminal_spec (b : board) :
  wf_board b ->
  terminal b = Ret match outcome b with InProgress => false | _ => true end.
Proof.
  intros Hwf. unfold terminal, outcome. rewrite winner_spec by assumption.
  simpl. destruct (winningLine b) as [[l m]|] eqn:E.
  - destruct (winningLine_mark b l m E) as [-> | ->]; reflexivity.
  - simpl. now destruct (length (actions b) =? 0)%nat.
Qed.

Lemma utility_spec (b : board) :
  wf_board b -> utility b = Ret (score (outcome b)).
Proof.
  intros Hwf. unfold utility, outcome. rewrite winner_spec by assumption.
  simpl. destruct (winningLine b) as [[l m]|] eqn:E.
  - destruct (winningLine_mark b l m E) as [-> | ->]; reflexivity.
  - simpl. now destruct (length (actions b) =? 0)%nat.
Qed.

Lemma not_terminal_actions (b : board) :
  terminal b = Ret false -> actions b <> [].
Proof.
  unfold terminal. intros H Hnil.
  apply bind_Ret in H as (w & _ & H). injection H as H.
  rewrite Hnil in H. simpl in H. now rewrite orb_true_r in H.
Qed.

(* ================================================================== *)
(** ** The order of the numbers *)

Lemma num_ltb_spec (a b : num) :
  if num_ltb a b then num_lt a b else num_le b a.
Proof.
  destruct a as [|x|], b as [|y|]; simpl; auto.
  destruct (Z.ltb_spec x y); lia.
Qed.

Lemma num_leb_spec (a b : num) :
  if num_leb a b then num_le a b else num_lt b a.
Proof.
  unfold num_leb.
  destruct b as [|y|], a as [|x|]; simpl; auto.
  destruct (Z.ltb_spec y x); simpl; lia.
Qed.

Lemma num_max_spec (a b : num) :
  (num_lt a b /\ num_max a b = b) \/ (num_le b a /\ num_max a b = a).
Proof.
  unfold num_max. pose proof (num_ltb_spec a b) as H.
  destruct (num_ltb a b); auto.
Qed.

Lemma num_min_spec (a b : num) :
  (num_lt b a /\ num_min a b = b) \/ (num_le a b /\ num_min a b = a).
Proof.
  unfold num_min. pose proof (num_ltb_spec b a) as H.
  destruct (num_ltb b a); auto.
Qed.

(** Goals about the order: by cases on the numbers. *)
Ltac num_crush :=
  solve [
    repeat match goal with
           | H : forall _ : num, _ |- _ => clear H
           | H : Forall _ _ |- _ => clear H
           | H : _ = Ret _ |- _ => clear H
           | H : _ -> _ -> exists _, _ |- _ => clear H
           | H : _ -> exists _, _ |- _ => clear H
           | H : _ -> forall _, _ |- _ => clear H
           | H : exists z : Z, _ = Fin z |- _ => destruct H as [? H]
           end;
    subst;
    repeat match goal with
           | n : num |- _ => destruct n
           end;
    simpl in *;
    first [ tauto | lia | congruence | now eauto | f_equal; lia
          | intuition (try congruence; try lia; eauto) ] ].

(* ================================================================== *)
(** ** The loops of the search *)

Section Loops.

Variable child : board -> num -> num -> comp (num * nullable action).
Variable b : board.
Variable cv : action -> Z.

Lemma max_loop_spec (beta : num) (todo : list action) :
  forall (alpha maxVal : num) (best : nullable action),
    Forall (evaluates child b cv) todo ->
    num_lt alpha beta -> num_le maxVal alpha ->
    exists r act,
      max_loop child b todo alpha beta maxVal best = Ret (r, act)
      /\ max_loop_post cv todo alpha beta maxVal best r act.
Proof.
  induction todo as [|a rest IH]; intros alpha maxVal best Hev Hlt Hle.
  - exists maxVal, best. split; [reflexivity|].
    unfold max_loop_post. repeat split; auto; try (intros; num_crush).
  - inversion_clear Hev as [|? ? (rb & Hres & Hchild) Hrest].
    destruct (Hchild alpha beta Hlt) as (v & act' & Hc & Hv1 & Hv2 & Hv3).
    simpl. rewrite Hres. simpl. rewrite Hc. simpl.
    pose proof (num_ltb_spec maxVal (Fin v)) as Hupd.
    destruct (num_ltb maxVal (Fin v)).
    + (* the move improves on the best value *)
      destruct (num_max_spec alpha (Fin v)) as [[Hm ->]|[Hm ->]];
        pose proof (num_leb_spec beta (Fin v)) as Hcut;
        pose proof (num_leb_spec beta alpha) as Hcut'.
      * destruct (num_leb beta (Fin v)).
        -- exists (Fin v), (Val a). split; [reflexivity|].
           unfold max_loop_post. repeat split; intros; num_crush.
        -- destruct (IH (Fin v) (Fin v) (Val a) Hrest Hcut) as
             (r & act & Hrun & P1 & P2 & P3 & P4 & P5 & P6); [simpl; lia|].
           exists r, act. split; [exact Hrun|].
           unfold max_loop_post. repeat split.
           ++ num_crush.
           ++ intros ->. num_crush.
           ++ right. num_crush; eauto.
           ++ intros Hr. num_crush.
           ++ intros Hr1 Hr2.
              pose proof (num_ltb_spec (Fin v) r) as Hin.
              destruct (num_ltb (Fin v) r).
              ** destruct (P5 Hin Hr2) as
                   (pre & a' & post & -> & -> & -> & Hpre & Hpost).
                 exists (a :: pre), a', post. repeat split; auto.
                 intros c [<-|Hc']; [|now apply Hpre].
                 simpl in Hin. specialize (Hv2 Hm Hcut). lia.
              ** assert (r = Fin v) by num_crush. subst r.
                 exists [], a, rest. specialize (Hv2 Hm Hcut).
                 repeat split; auto.
                 --- congruence.
                 --- intros c [].
                 --- intros c Hc'. specialize (P4 Hin c Hc'). simpl in P4. lia.
           ++ intros Hr. destruct (P6 Hr) as (a' & Ha' & Hle').
              exists a'. split; [now right|exact Hle'].
      * destruct (num_leb beta alpha); [num_crush|].
        destruct (IH alpha (Fin v) (Val a) Hrest Hlt Hm) as
          (r & act & Hrun & P1 & P2 & P3 & P4 & P5 & P6).
        exists r, act. split; [exact Hrun|].
        unfold max_loop_post. repeat split.
        -- num_crush.
        -- intros ->. num_crush.
        -- right. num_crush; eauto.
        -- intros Hr c [<-|Hc']; [|now apply P4].
           assert (Hva : cv a <= v) by (apply Hv1; exact Hm).
           num_crush.
        -- intros Hr1 Hr2.
           destruct (P5 Hr1 Hr2) as
             (pre & a' & post & -> & -> & -> & Hpre & Hpost).
           exists (a :: pre), a', post. repeat split; auto.
           intros c [<-|Hc']; [|now apply Hpre].
           assert (Hva : cv a <= v) by (apply Hv1; exact Hm).
           num_crush.
        -- intros Hr. destruct (P6 Hr) as (a' & Ha' & Hle').
           exists a'. split; [now right|exact Hle'].
    + (* it does not *)
      destruct (num_max_spec alpha maxVal) as [[Hm ->]|[Hm ->]];
        [num_crush|].
      pose proof (num_leb_spec beta alpha) as Hcut.
      destruct (num_leb beta alpha); [num_crush|].
      destruct (IH alpha maxVal best Hrest Hlt Hle) as
        (r & act & Hrun & P1 & P2 & P3 & P4 & P5 & P6).
      exists r, act. split; [exact Hrun|].
      unfold max_loop_post. repeat split; auto.
      * intros Hr c [<-|Hc']; [|now apply P4].
        assert (Hva : cv a <= v) by (apply Hv1; num_crush).
        num_crush.
      * intros Hr1 Hr2.
        destruct (P5 Hr1 Hr2) as
          (pre & a' & post & -> & -> & -> & Hpre & Hpost).
        exists (a :: pre), a', post. repeat split; auto.
        intros c [<-|Hc']; [|now apply Hpre].
        assert (Hva : cv a <= v) by (apply Hv1; num_crush).
        num_crush.
      * intros Hr. destruct (P6 Hr) as (a' & Ha' & Hle').
        exists a'. split; [now right|exact Hle'].
Qed.

Lemma min_loop_spec (alpha : num) (todo : list action) :
  forall (beta minVal : num) (best : nullable action),
    Forall (evaluates child b cv) todo ->
    num_lt alpha beta -> num_le beta minVal ->
    exists r act,
      min_loop child b todo alpha beta minVal best = Ret (r, act)
      /\ min_loop_post cv todo alpha beta minVal best r act.
Proof.
  induction todo as [|a rest IH]; intros beta minVal best Hev Hlt Hle.
  - exists minVal, best. split; [reflexivity|].
    unfold min_loop_post. repeat split; auto; try (intros; num_crush).
  - inversion_clear Hev as [|? ? (rb & Hres & Hchild) Hrest].
    destruct (Hchild alpha beta Hlt) as (v & act' & Hc & Hv1 & Hv2 & Hv3).
    cbn -[num_ltb num_leb num_min]. rewrite Hres.
    cbn -[num_ltb num_leb num_min]. rewrite Hc.
    cbn -[num_ltb num_leb num_min].
    pose proof (num_ltb_spec (Fin v) minVal) as Hupd.
    destruct (num_ltb (Fin v) minVal).
    + (* the move improves on the best value *)
      destruct (num_min_spec beta (Fin v)) as [[Hm ->]|[Hm ->]];
        pose proof (num_leb_spec (Fin v) alpha) as Hcut;
        pose proof (num_leb_spec beta alpha) as Hcut'.
      * destruct (num_leb (Fin v) alpha).
        -- exists (Fin v), (Val a). split; [reflexivity|].
           unfold min_loop_post. repeat split; intros; num_crush.
        -- destruct (IH (Fin v) (Fin v) (Val a) Hrest Hcut) as
             (r & act & Hrun & P1 & P2 & P3 & P4 & P5 & P6); [simpl; lia|].
           exists r, act. split; [exact Hrun|].
           unfold min_loop_post. repeat split.
           ++ num_crush.
           ++ intros ->. num_crush.
           ++ right. num_crush; eauto.
           ++ intros Hr. num_crush.
           ++ intros Hr1 Hr2.
              pose proof (num_ltb_spec r (Fin v)) as Hin.
              destruct (num_ltb r (Fin v)).
              ** destruct (P5 Hr1 Hin) as
                   (pre & a' & post & -> & -> & -> & Hpre & Hpost).
                 exists (a :: pre), a', post. repeat split; auto.
                 intros c [<-|Hc']; [|now apply Hpre].
                 simpl in Hin. specialize (Hv2 Hcut Hm). lia.
              ** assert (r = Fin v) by num_crush. subst r.
                 exists [], a, rest. specialize (Hv2 Hcut Hm).
                 repeat split; auto.
                 --- congruence.
                 --- intros c [].
                 --- intros c Hc'. specialize (P4 Hin c Hc'). simpl in P4. lia.
           ++ intros Hr. destruct (P6 Hr) as (a' & Ha' & Hle').
              exists a'. split; [now right|exact Hle'].
      * destruct (num_leb beta alpha); [num_crush|].
        destruct (IH beta (Fin v) (Val a) Hrest Hlt Hm) as
          (r & act & Hrun & P1 & P2 & P3 & P4 & P5 & P6).
        exists r, act. split; [exact Hrun|].
        unfold min_loop_post. repeat split.
        -- num_crush.
        -- intros ->. num_crush.
        -- right. num_crush; eauto.
        -- intros Hr c [<-|Hc']; [|now apply P4].
           assert (Hva : v <= cv a) by (apply Hv3; exact Hm).
           num_crush.
        -- intros Hr1 Hr2.
           destruct (P5 Hr1 Hr2) as
             (pre & a' & post & -> & -> & -> & Hpre & Hpost).
           exists (a :: pre), a', post. repeat split; auto.
           intros c [<-|Hc']; [|now apply Hpre].
           assert (Hva : v <= cv a) by (apply Hv3; exact Hm).
           num_crush.
        -- intros Hr. destruct (P6 Hr) as (a' & Ha' & Hle').
           exists a'. split; [now right|exact Hle'].
    + (* it does not *)
      destruct (num_min_spec beta minVal) as [[Hm ->]|[Hm ->]];
        [num_crush|].
      pose proof (num_leb_spec beta alpha) as Hcut.
      destruct (num_leb beta alpha); [num_crush|].
      destruct (IH beta minVal best Hrest Hlt Hle) as
        (r & act & Hrun & P1 & P2 & P3 & P4 & P5 & P6).
      exists r, act. split; [exact Hrun|].
      unfold min_loop_post. repeat split; auto.
      * intros Hr c [<-|Hc']; [|now apply P4].
        assert (Hva : v <= cv a) by (apply Hv3; num_crush).
        num_crush.
      * intros Hr1 Hr2.
        destruct (P5 Hr1 Hr2) as
          (pre & a' & post & -> & -> & -> & Hpre & Hpost).
        exists (a :: pre), a', post. repeat split; auto.
        intros c [<-|Hc']; [|now apply Hpre].
        assert (Hva : v <= cv a) by (apply Hv3; num_crush).
        num_crush.
      * intros Hr. destruct (P6 Hr) as (a' & Ha' & Hle').
        exists a'. split; [now right|exact Hle'].
Qed.

End Loops.

(** The loops return what they returned when the calls they make return what
    they returned. *)
Lemma max_loop_extends
  (child child' : board -> num -> num -> comp (num * nullable action)) :
  (forall b alpha beta r, child b alpha beta = Ret r ->
                          child' b alpha beta = Ret r) ->
  forall b todo alpha beta maxVal best r,
    max_loop child b todo alpha beta maxVal best = Ret r ->
    max_loop child' b todo alpha beta maxVal best = Ret r.
Proof.
  intros Hext b todo.
  induction todo as [|a rest IH]; intros alpha beta maxVal best r H;
    [exact H|].
  cbn [max_loop] in *.
  destruct (result b a) as [rb| |]; cbn [bind] in *; try discriminate.
  destruct (child rb alpha beta) as [p| |] eqn:E; cbn [bind] in *;
    try discriminate.
  rewrite (Hext _ _ _ _ E). cbn [bind].
  destruct (num_ltb maxVal (fst p));
    match goal with
    | |- context [num_leb ?x ?y] => destruct (num_leb x y)
    end; auto.
Qed.

Lemma min_loop_extends
  (child child' : board -> num -> num -> comp (num * nullable action)) :
  (forall b alpha beta r, child b alpha beta = Ret r ->
                          child' b alpha beta = Ret r) ->
  forall b todo alpha beta minVal best r,
    min_loop child b todo alpha beta minVal best = Ret r ->
    min_loop child' b todo alpha beta minVal best = Ret r.
Proof.
  intros Hext b todo.
  induction todo as [|a rest IH]; intros alpha beta minVal best r H;
    [exact H|].
  cbn [min_loop] in *.
  destruct (result b a) as [rb| |]; cbn [bind] in *; try discriminate.
  destruct (child rb alpha beta) as [p| |] eqn:E; cbn [bind] in *;
    try discriminate.
  rewrite (Hext _ _ _ _ E). cbn [bind].
  destruct (num_ltb (fst p) minVal);
    match goal with
    | |- context [num_leb ?x ?y] => destruct (num_leb x y)
    end; auto.
Qed.

(** A search that returns with some fuel returns the same with more: the
    fuel only bounds the depth of the model, the result does not depend on
    it. *)
Lemma search_fuel (n : nat) :
  (forall b alpha beta r,
      maxValue n b alpha beta = Ret r -> maxValue (S n) b alpha beta = Ret r)
  /\ (forall b alpha beta r,
        minValue n b alpha beta = Ret r -> minValue (S n) b alpha beta = Ret r).
Proof.
  induction n as [|n [IHmax IHmin]]; [split; intros; discriminate|].
  split; intros b alpha beta r H.
  - change (maxValue (S (S n)) b alpha beta) with
      (t <- terminal b ;;
       if t then u <- utility b ;; Ret (Fin u, Null)
       else max_loop (minValue (S n)) b (actions b) alpha beta
                     NegInf Undefined).
    change (maxValue (S n) b alpha beta) with
      (t <- terminal b ;;
       if t then u <- utility b ;; Ret (Fin u, Null)
       else max_loop (minValue n) b (actions b) alpha beta
                     NegInf Undefined) in H.
    destruct (terminal b) as [[|]| |]; cbn [bind] in *; auto.
    eapply max_loop_extends; [exact IHmin|exact H].
  - change (minValue (S (S n)) b alpha beta) with
      (t <- terminal b ;;
       if t then u <- utility b ;; Ret (Fin u, Null)
       else min_loop (maxValue (S n)) b (actions b) alpha beta
                     PosInf Undefined).
    change (minValue (S n) b alpha beta) with
      (t <- terminal b ;;
       if t then u <- utility b ;; Ret (Fin u, Null)
       else min_loop (maxValue n) b (actions b) alpha beta
                     PosInf Undefined) in H.
    destruct (terminal b) as [[|]| |]; cbn [bind] in *; auto.
    eapply min_loop_extends; [exact IHmax|exact H].
Qed.

(* ================================================================== *)
(** ** Extrema *)

Lemma maximum_ge (l : list Z) (v : Z) : In v l -> v <= maximum l.
Proof.
  induction l as [|w rest IH]; intros H; [destruct H|].
  destruct rest as [|w' rest'].
  - destruct H as [->|[]]. simpl. lia.
  - change (maximum (w :: w' :: rest')) with (Z.max w (maximum (w' :: rest'))).
    destruct H as [->|H]; [lia|]. specialize (IH H). lia.
Qed.

Lemma maximum_le (l : list Z) (m : Z) :
  l <> [] -> (forall v, In v l -> v <= m) -> maximum l <= m.
Proof.
  induction l as [|w rest IH]; intros Hne H; [congruence|].
  destruct rest as [|w' rest'].
  - simpl. apply H. now left.
  - change (maximum (w :: w' :: rest')) with (Z.max w (maximum (w' :: rest'))).
    assert (maximum (w' :: rest') <= m).
    { apply IH; [discriminate|]. intros v Hv. apply H. now right. }
    assert (w <= m) by (apply H; now left). lia.
Qed.

Lemma minimum_le (l : list Z) (v : Z) : In v l -> minimum l <= v.
Proof.
  induction l as [|w rest IH]; intros H; [destruct H|].
  destruct rest as [|w' rest'].
  - destruct H as [->|[]]. simpl. lia.
  - change (minimum (w :: w' :: rest')) with (Z.min w (minimum (w' :: rest'))).
    destruct H as [->|H]; [lia|]. specialize (IH H). lia.
Qed.

Lemma minimum_ge (l : list Z) (m : Z) :
  l <> [] -> (forall v, In v l -> m <= v) -> m <= minimum l.
Proof.
  induction l as [|w rest IH]; intros Hne H; [congruence|].
  destruct rest as [|w' rest'].
  - simpl. apply H. now left.
  - change (minimum (w :: w' :: rest')) with (Z.min w (minimum (w' :: rest'))).
    assert (m <= minimum (w' :: rest')).
    { apply IH; [discriminate|]. intros v Hv. apply H. now right. }
    assert (m <= w) by (apply H; now left). lia.
Qed.

(** From the end state of the loops to the result of the node. *)
Lemma max_loop_node (cv : action -> Z) (todo : list action)
  (alpha beta r : num) (act : nullable action) :
  todo <> [] ->
  max_loop_post cv todo alpha beta NegInf Undefined r act ->
  exists z, r = Fin z
    /\ ab_spec alpha beta (maximum (map cv todo)) z
    /\ (num_lt alpha r -> num_lt r beta ->
        exists a, act = Val a /\ cv a = maximum (map cv todo)
                  /\ first_max cv todo a).
Proof.
  intros Hne (P1 & P2 & P3 & P4 & P5 & P6).
  assert (Hmap : map cv todo <> []) by (destruct todo; [congruence|discriminate]).
  destruct P3 as [->|[z ->]].
  { destruct todo as [|a rest]; [congruence|].
    exfalso. apply (P4 I a). now left. }
  exists z. split; [reflexivity|].
  assert (Hin : num_lt alpha (Fin z) -> num_lt (Fin z) beta ->
                exists a, act = Val a /\ cv a = maximum (map cv todo)
                          /\ first_max cv todo a).
  { intros H1 H2.
    destruct (P5 H1 H2) as (pre & a & post & -> & -> & Hz & Hpre & Hpost).
    injection Hz as ->. exists a. split; [reflexivity|]. split.
    - apply Z.le_antisymm.
      + apply maximum_ge, in_map, in_elt.
      + apply maximum_le; [assumption|]. intros v Hv.
        apply in_map_iff in Hv as (c & <- & Hc).
        apply in_app_or in Hc as [Hc|[<-|Hc]]; [|lia|auto].
        specialize (Hpre c Hc). lia.
    - exists pre, post. auto. }
  split; [|exact Hin]. repeat split.
  - intros H. apply maximum_le; [assumption|]. intros v Hv.
    apply in_map_iff in Hv as (c & <- & Hc). exact (P4 H c Hc).
  - intros H1 H2.
    destruct (P5 H1 H2) as (_ & a' & _ & _ & Hact & Hz & _).
    destruct (Hin H1 H2) as (a'' & Hact' & Ha'' & _).
    rewrite Hact in Hact'. injection Hact' as <-. injection Hz as ->.
    now symmetry.
  - intros H. destruct (P6 H) as (a & Ha & Hle). simpl in Hle.
    pose proof (maximum_ge (map cv todo) (cv a) (in_map cv _ _ Ha)). lia.
Qed.

Lemma min_loop_node (cv : action -> Z) (todo : list action)
  (alpha beta r : num) (act : nullable action) :
  todo <> [] ->
  min_loop_post cv todo alpha beta PosInf Undefined r act ->
  exists z, r = Fin z
    /\ ab_spec alpha beta (minimum (map cv todo)) z
    /\ (num_lt alpha r -> num_lt r beta ->
        exists a, act = Val a /\ cv a = minimum (map cv todo)
                  /\ first_min cv todo a).
Proof.
  intros Hne (P1 & P2 & P3 & P4 & P5 & P6).
  assert (Hmap : map cv todo <> []) by (destruct todo; [congruence|discriminate]).
  destruct P3 as [->|[z ->]].
  { destruct todo as [|a rest]; [congruence|].
    exfalso. destruct beta; apply (P4 I a); now left. }
  exists z. split; [reflexivity|].
  assert (Hin : num_lt alpha (Fin z) -> num_lt (Fin z) beta ->
                exists a, act = Val a /\ cv a = minimum (map cv todo)
                          /\ first_min cv todo a).
  { intros H1 H2.
    destruct (P5 H1 H2) as (pre & a & post & -> & -> & Hz & Hpre & Hpost).
    injection Hz as ->. exists a. split; [reflexivity|]. split.
    - apply Z.le_antisymm.
      + apply minimum_ge; [assumption|]. intros v Hv.
        apply in_map_iff in Hv as (c & <- & Hc).
        apply in_app_or in Hc as [Hc|[<-|Hc]]; [|lia|auto].
        specialize (Hpre c Hc). lia.
      + apply minimum_le, in_map, in_elt.
    - exists pre, post. auto. }
  split; [|exact Hin]. repeat split.
  - intros H. destruct (P6 H) as (a & Ha & Hle). simpl in Hle.
    pose proof (minimum_le (map cv todo) (cv a) (in_map cv _ _ Ha)). lia.
  - intros H1 H2.
    destruct (P5 H1 H2) as (_ & a' & _ & _ & Hact & Hz & _).
    destruct (Hin H1 H2) as (a'' & Hact' & Ha'' & _).
    rewrite Hact in Hact'. injection Hact' as <-. injection Hz as ->.
    now symmetry.
  - intros H. apply minimum_ge; [assumption|]. intros v Hv.
    apply in_map_iff in Hv as (c & <- & Hc). exact (P4 H c Hc).
Qed.

(* ================================================================== *)
(** ** The search returns the value of the game *)

Lemma ab_spec_exact (alpha beta : num) (V : Z) : ab_spec alpha beta V V.
Proof. unfold ab_spec. repeat split; intros; lia. Qed.

(** The search of a finished game. *)
Lemma terminal_node (n : nat) (b : board) :
  wf_board b -> terminal b = Ret true ->
  value (S n) b = Ret (score (outcome b))
  /\ max_node_ok n b (score (outcome b))
  /\ min_node_ok n b (score (outcome b)).
Proof.
  intros Hwf Ht. repeat split.
  - simpl. rewrite Ht. simpl. now apply utility_spec.
  - intros alpha beta _. exists (score (outcome b)), Null. simpl.
    rewrite Ht. simpl. rewrite utility_spec by assumption. simpl.
    split; [reflexivity|]. split; [apply ab_spec_exact|discriminate].
  - intros alpha beta _. exists (score (outcome b)), Null. simpl.
    rewrite Ht. simpl. rewrite utility_spec by assumption. simpl.
    split; [reflexivity|]. split; [apply ab_spec_exact|discriminate].
Qed.

(** The positions one move away from [b], when those with [n] empty cells
    are searched correctly. *)
Lemma children_searched (n : nat) (b : board) :
  (forall rb, wf_board rb -> length (actions rb) = n ->
              exists V, value (S n) rb = Ret V
                        /\ (player rb = X -> max_node_ok n rb V)
                        /\ (player rb = O -> min_node_ok n rb V)) ->
  wf_board b -> length (actions b) = S n ->
  (forall a, In a (actions b) ->
             exists rb, result b a = Ret rb
                        /\ value (S n) rb = Ret (cvalue (S n) b a))
  /\ (player b = X ->
      Forall (evaluates (minValue (S n)) b (cvalue (S n) b)) (actions b))
  /\ (player b = O ->
      Forall (evaluates (maxValue (S n)) b (cvalue (S n) b)) (actions b)).
Proof.
  intros IH Hwf Hlen.
  assert (Hchild : forall a, In a (actions b) ->
            exists rb V, result b a = Ret rb /\ value (S n) rb = Ret V
                         /\ cvalue (S n) b a = V
                         /\ (player rb = X -> max_node_ok n rb V)
                         /\ (player rb = O -> min_node_ok n rb V)).
  { intros a Ha. apply result_accepts in Ha as [rb Hres]; [|assumption].
    destruct (IH rb) as (V & HV & Hmax & Hmin).
    - eapply result_wf; eauto.
    - apply result_actions_length in Hres. lia.
    - exists rb, V. unfold cvalue. rewrite Hres, HV. auto. }
  repeat split.
  - intros a Ha. destruct (Hchild a Ha) as (rb & V & Hres & HV & <- & _).
    eauto.
  - intros Hp. apply Forall_forall. intros a Ha.
    destruct (Hchild a Ha) as (rb & V & Hres & HV & HcV & _ & Hmin).
    exists rb. split; [assumption|]. intros alpha beta Hlt.
    assert (Hpl : player rb = O)
      by (rewrite (result_player b a rb Hres), Hp; reflexivity).
    destruct (Hmin Hpl alpha beta Hlt) as (r & act & Hrun & Hspec & _).
    exists r, act. now rewrite HcV.
  - intros Hp. apply Forall_forall. intros a Ha.
    destruct (Hchild a Ha) as (rb & V & Hres & HV & HcV & Hmax & _).
    exists rb. split; [assumption|]. intros alpha beta Hlt.
    assert (Hpl : player rb = X)
      by (rewrite (result_player b a rb Hres), Hp; reflexivity).
    destruct (Hmax Hpl alpha beta Hlt) as (r & act & Hrun & Hspec & _).
    exists r, act. now rewrite HcV.
Qed.

Lemma terminal_total (b : board) :
  wf_board b -> terminal b = Ret true \/ terminal b = Ret false.
Proof.
  intros Hwf. rewrite terminal_spec by assumption.
  destruct (outcome b); auto.
Qed.

(** The search is correct on every well-formed board: with one unit of fuel
    more than there are empty cells, [value] returns a value [V], and the
    procedure of the side to play returns [V] when it lies inside the window
    and a bound of it otherwise. *)
Lemma search_spec (n : nat) :
  forall b, wf_board b -> length (actions b) = n ->
    exists V, value (S n) b = Ret V
              /\ (player b = X -> max_node_ok n b V)
              /\ (player b = O -> min_node_ok n b V).
Proof.
  induction n as [|n IH]; intros b Hwf Hlen.
  - (* no empty cell: the game is over *)
    assert (Ht : terminal b = Ret true).
    { destruct (terminal_total b Hwf) as [H|H]; [exact H|].
      apply not_terminal_actions in H. destruct (actions b); [congruence|].
      discriminate. }
    exists (score (outcome b)).
    destruct (terminal_node 0 b Hwf Ht) as (H1 & H2 & H3). auto.
  - destruct (terminal_total b Hwf) as [Ht|Ht].
    { exists (score (outcome b)).
      destruct (terminal_node (S n) b Hwf Ht) as (H1 & H2 & H3). auto. }
    destruct (children_searched n b IH Hwf Hlen) as (Hval & HX & HO).
    assert (Hne : actions b <> []) by now apply not_terminal_actions.
    assert (HmapM : mapM (fun a => rb <- result b a ;; value (S n) rb)
                         (actions b)
                    = Ret (map (cvalue (S n) b) (actions b))).
    { apply mapM_map. intros a Ha.
      destruct (Hval a Ha) as (rb & Hres & HV). now rewrite Hres. }
    exists (if mark_eqb (player b) X
            then maximum (map (cvalue (S n) b) (actions b))
            else minimum (map (cvalue (S n) b) (actions b))).
    split; [|split].
    + change (value (S (S n)) b) with
        (t <- terminal b ;;
         if t then utility b
         else vs <- mapM (fun a => rb <- result b a ;; value (S n) rb)
                         (actions b) ;;
              Ret (if mark_eqb (player b) X then maximum vs else minimum vs)).
      rewrite Ht. cbn [bind]. rewrite HmapM. reflexivity.
    + intros Hp. rewrite Hp. simpl. intros alpha beta Hlt.
      destruct (max_loop_spec (minValue (S n)) b (cvalue (S n) b) beta
                  (actions b) alpha NegInf Undefined (HX Hp) Hlt I)
        as (r & act & Hrun & Hpost).
      destruct (max_loop_node _ _ _ _ _ _ Hne Hpost) as (z & -> & Hab & Hact).
      exists z, act. split; [|split].
      * change (maxValue (S (S n)) b alpha beta) with
          (t <- terminal b ;;
           if t then u <- utility b ;; Ret (Fin u, Null)
           else max_loop (minValue (S n)) b (actions b) alpha beta
                         NegInf Undefined).
        rewrite Ht. exact Hrun.
      * exact Hab.
      * intros _ H1 H2. destruct (Hact H1 H2) as (a & Ha1 & Ha2 & Ha3). eauto.
    + intros Hp. rewrite Hp. simpl. intros alpha beta Hlt.
      assert (Hle : num_le beta PosInf) by (now destruct beta).
      destruct (min_loop_spec (maxValue (S n)) b (cvalue (S n) b) alpha
                  (actions b) beta PosInf Undefined (HO Hp) Hlt Hle)
        as (r & act & Hrun & Hpost).
      destruct (min_loop_node _ _ _ _ _ _ Hne Hpost) as (z & -> & Hab & Hact).
      exists z, act. split; [|split].
      * change (minValue (S (S n)) b alpha beta) with
          (t <- terminal b ;;
           if t then u <- utility b ;; Ret (Fin u, Null)
           else min_loop (maxValue (S n)) b (actions b) alpha beta
                         PosInf Undefined).
        rewrite Ht. exact Hrun.
      * exact Hab.
      * intros _ H1 H2. destruct (Hact H1 H2) as (a & Ha1 & Ha2 & Ha3). eauto.
Qed.

(** The value of a position on which the game is not over is the greatest,
    or the least, of the values of the moves. *)
Lemma value_not_terminal (n : nat) (b : board) :
  wf_board b -> length (actions b) = S n -> terminal b = Ret false ->
  value (S (S n)) b
  = Ret (if mark_eqb (player b) X
         then maximum (map (cvalue (S n) b) (actions b))
         else minimum (map (cvalue (S n) b) (actions b))).
Proof.
  intros Hwf Hlen Ht.
  destruct (children_searched n b (search_spec n) Hwf Hlen) as (Hval & _).
  change (value (S (S n)) b) with
    (t <- terminal b ;;
     if t then utility b
     else vs <- mapM (fun a => rb <- result b a ;; value (S n) rb)
                     (actions b) ;;
          Ret (if mark_eqb (player b) X then maximum vs else minimum vs)).
  rewrite Ht. cbn [bind].
  rewrite (mapM_map _ (cvalue (S n) b)); [reflexivity|].
  intros a Ha. destruct (Hval a Ha) as (rb & Hres & HV). now rewrite Hres.
Qed.

(** The values are those of the finished games: 1, 0 and -1. *)
Lemma value_range (n : nat) :
  forall b v, wf_board b -> length (actions b) = n ->
              value (S n) b = Ret v -> -1 <= v <= 1.
Proof.
  induction n as [|n IH]; intros b v Hwf Hlen Hv.
  - assert (Ht : terminal b = Ret true).
    { destruct (terminal_total b Hwf) as [H|H]; [exact H|].
      apply not_terminal_actions in H. destruct (actions b); [congruence|].
      discriminate. }
    destruct (terminal_node 0 b Hwf Ht) as (H & _).
    rewrite H in Hv. injection Hv as <-. destruct (outcome b); simpl; lia.
  - destruct (terminal_total b Hwf) as [Ht|Ht].
    { destruct (terminal_node (S n) b Hwf Ht) as (H & _).
      rewrite H in Hv. injection Hv as <-. destruct (outcome b); simpl; lia. }
    rewrite (value_not_terminal n b Hwf Hlen Ht) in Hv. injection Hv as <-.
    assert (Hne : actions b <> []) by now apply not_terminal_actions.
    assert (Hmap : map (cvalue (S n) b) (actions b) <> [])
      by (destruct (actions b); [congruence|discriminate]).
    assert (Hall : forall w, In w (map (cvalue (S n) b) (actions b)) ->
                             -1 <= w <= 1).
    { intros w Hw. apply in_map_iff in Hw as (a & <- & Ha).
      destruct (children_searched n b (search_spec n) Hwf Hlen) as (Hval & _).
      destruct (Hval a Ha) as (rb & Hres & HV).
      apply (IH rb); [eapply result_wf; eauto| |exact HV].
      apply result_actions_length in Hres. lia. }
    destruct (map (cvalue (S n) b) (actions b)) as [|w ws] eqn:E;
      [congruence|].
    assert (Hw : -1 <= w <= 1) by (apply Hall; now left).
    destruct (mark_eqb (player b) X).
    + pose proof (maximum_ge (w :: ws) w (or_introl eq_refl)).
      pose proof (maximum_le (w :: ws) 1 Hmap (fun u Hu => proj2 (Hall u Hu))).
      lia.
    + pose proof (minimum_le (w :: ws) w (or_introl eq_refl)).
      pose proof (minimum_ge (w :: ws) (-1) Hmap
                    (fun u Hu => proj1 (Hall u Hu))).
      lia.
Qed.

Lemma game_value_terminal (b : board) :
  wf_board b -> terminal b = Ret true ->
  game_value b = Ret (score (outcome b)).
Proof.
  intros Hwf Ht.
  now destruct (terminal_node (length (actions b)) b Hwf Ht) as (H & _).
Qed.

Lemma game_value_range (b : board) (v : Z) :
  wf_board b -> game_value b = Ret v -> v = -1 \/ v = 0 \/ v = 1.
Proof.
  intros Hwf Hv.
  pose proof (value_range (length (actions b)) b v Hwf eq_refl Hv). lia.
Qed.

(* ================================================================== *)
(** ** Reachable boards *)

Lemma initialState_wf : wf_board initialState.
Proof. split; [reflexivity|]. repeat constructor. Qed.

Lemma reachable_wf (b : board) : reachable b -> wf_board b.
Proof.
  induction 1 as [|b a b' _ IH Hres]; [apply initialState_wf|].
  eapply result_wf; eauto.
Qed.

Lemma legal_play_reachable (b : board) : legal_play b -> reachable b.
Proof.
  induction 1 as [|b a b' _ IH _ Hres]; [constructor|].
  econstructor; eauto.
Qed.

(* ================================================================== *)
(** ** The move [minimax] returns *)

Lemma move_value_cvalue (b : board) (a : action) :
  wf_board b -> In a (actions b) ->
  move_value b a = Ret (cvalue (length (actions b)) b a).
Proof.
  intros Hwf Ha.
  destruct (length (actions b)) as [|n] eqn:Hlen.
  { destruct (actions b); [destruct Ha|discriminate]. }
  destruct (children_searched n b (search_spec n) Hwf Hlen) as (Hval & _).
  destruct (Hval a Ha) as (rb & Hres & HV).
  unfold move_value, game_value, depth. rewrite Hres. simpl.
  apply result_actions_length in Hres.
  replace (length (actions rb)) with n by lia. exact HV.
Qed.

(** On a well-formed board on which the game is not over, [minimax] returns
    a move; its value is the value of the game, and it is the first of the
    moves of [actions] with that value. *)
Lemma minimax_spec (b : board) :
  wf_board b -> terminal b = Ret false ->
  exists a V,
    minimax b = Ret (Val a)
    /\ game_value b = Ret V
    /\ cvalue (length (actions b)) b a = V
    /\ (player b = X ->
        first_max (cvalue (length (actions b)) b) (actions b) a)
    /\ (player b = O ->
        first_min (cvalue (length (actions b)) b) (actions b) a).
Proof.
  intros Hwf Ht.
  destruct (search_spec (length (actions b)) b Hwf eq_refl)
    as (V & HV & Hmax & Hmin).
  unfold minimax, game_value, depth. rewrite Ht. cbn [bind].
  destruct (player_cases b) as [Hp|Hp]; rewrite Hp; cbn [mark_eqb].
  - destruct (Hmax Hp NegInf PosInf I) as (r & act & Hrun & Hab & Hact).
    destruct (Hact Ht I I) as (a & -> & Ha & Hfirst).
    exists a, V. rewrite Hrun. cbn [bind snd].
    repeat split; auto. discriminate.
  - destruct (Hmin Hp NegInf PosInf I) as (r & act & Hrun & Hab & Hact).
    destruct (Hact Ht I I) as (a & -> & Ha & Hfirst).
    exists a, V. rewrite Hrun. cbn [bind snd].
    repeat split; auto. discriminate.
Qed.

Lemma first_max_In (cv : action -> Z) (moves : list action) (a : action) :
  first_max cv moves a ->
  In a moves /\ forall c, In c moves -> cv c <= cv a.
Proof.
  intros (pre & post & -> & Hpre & Hpost). split; [apply in_elt|].
  intros c Hc. apply in_app_or in Hc as [Hc|[<-|Hc]]; [|lia|auto].
  specialize (Hpre c Hc). lia.
Qed.

Lemma first_min_In (cv : action -> Z) (moves : list action) (a : action) :
  first_min cv moves a ->
  In a moves /\ forall c, In c moves -> cv a <= cv c.
Proof.
  intros (pre & post & -> & Hpre & Hpost). split; [apply in_elt|].
  intros c Hc. apply in_app_or in Hc as [Hc|[<-|Hc]]; [|lia|auto].
  specialize (Hpre c Hc). lia.
Qed.

(** The move of [minimax] is optimal on every well-formed board. *)
Lemma best_move_optimal (b : board) :
  wf_board b -> terminal b = Ret false ->
  exists a v,
    minimax b = Ret (Val a)
    /\ In a (actions b)
    /\ move_value b a = Ret v
    /\ game_value b = Ret v
    /\ forall a' v', move_value b a' = Ret v' ->
         (player b = X -> v' <= v) /\ (player b = O -> v <= v').
Proof.
  intros Hwf Ht.
  destruct (minimax_spec b Hwf Ht) as (a & V & Hrun & HV & Ha & Hmax & Hmin).
  assert (Hin : In a (actions b)).
  { destruct (player_cases b) as [Hp|Hp].
    - now apply (first_max_In _ _ _ (Hmax Hp)).
    - now apply (first_min_In _ _ _ (Hmin Hp)). }
  exists a, V. repeat split; auto.
  - rewrite move_value_cvalue by assumption. now rewrite Ha.
  - intros Hp.
    assert (Hin' : In a' (actions b)).
    { apply result_accepts; [assumption|].
      unfold move_value in H. apply bind_Ret in H as (rb & Hres & _). eauto. }
    rewrite move_value_cvalue in H by assumption. injection H as <-.
    rewrite <- Ha. now apply (first_max_In _ _ _ (Hmax Hp)).
  - intros Hp.
    assert (Hin' : In a' (actions b)).
    { apply result_accepts; [assumption|].
      unfold move_value in H. apply bind_Ret in H as (rb & Hres & _). eauto. }
    rewrite move_value_cvalue in H by assumption. injection H as <-.
    rewrite <- Ha. now apply (first_min_In _ _ _ (Hmin Hp)).
Qed.

(** Ties are broken by the order of [actions]: no move listed before the one
    [minimax] returns has the value of the game. *)
Lemma minimax_first_optimal (b : board) :
  wf_board b -> terminal b = Ret false ->
  exists a v pre post,
    minimax b = Ret (Val a)
    /\ actions b = pre ++ a :: post
    /\ game_value b = Ret v
    /\ move_value b a = Ret v
    /\ forall c, In c pre -> move_value b c <> Ret v.
Proof.
  intros Hwf Ht.
  destruct (minimax_spec b Hwf Ht) as (a & V & Hrun & HV & Ha & Hmax & Hmin).
  assert (Hsplit : exists pre post,
            actions b = pre ++ a :: post
            /\ forall c, In c pre -> cvalue (length (actions b)) b c <> V).
  { destruct (player_cases b) as [Hp|Hp].
    - destruct (Hmax Hp) as (pre & post & Heq & Hpre & _).
      exists pre, post. split; [assumption|].
      intros c Hc. specialize (Hpre c Hc). lia.
    - destruct (Hmin Hp) as (pre & post & Heq & Hpre & _).
      exists pre, post. split; [assumption|].
      intros c Hc. specialize (Hpre c Hc). lia. }
  destruct Hsplit as (pre & post & Heq & Hpre).
  exists a, V, pre, post. repeat split; auto.
  - rewrite move_value_cvalue; [now rewrite Ha|assumption|].
    rewrite Heq. apply in_elt.
  - intros c Hc Hval. rewrite move_value_cvalue in Hval.
    + injection Hval as Hval. now apply (Hpre c Hc).
    + assumption.
    + rewrite Heq. apply in_or_app. now left.
Qed.

(* ================================================================== *)
(** ** [result] on the heap *)

Lemma set_nth_app_r {A : Type} (f : A -> A) (l1 l2 : list A) (k : nat) :
  set_nth (length l1 + k)%nat f (l1 ++ l2) = l1 ++ set_nth k f l2.
Proof. induction l1 as [|a rest IH]; simpl; [reflexivity|now rewrite IH]. Qed.

Lemma set_nth_app_l {A : Type} (f : A -> A) (l1 l2 : list A) (k : nat) :
  (k < length l1)%nat -> set_nth k f (l1 ++ l2) = set_nth k f l1 ++ l2.
Proof.
  revert k. induction l1 as [|a rest IH]; intros [|k] H; simpl in *;
    try lia; [reflexivity|]. rewrite IH by lia. reflexivity.
Qed.

Lemma set_nth_map {A B : Type} (g : A -> B) (f : A -> A) (F : B -> B)
  (l : list A) (k : nat) :
  (forall a, F (g a) = g (f a)) ->
  set_nth k F (map g l) = map g (set_nth k f l).
Proof.
  intros H. revert k. induction l as [|a rest IH]; intros [|k]; simpl;
    try reflexivity; [now rewrite H|now rewrite IH].
Qed.

Lemma load_rows_alloc (h : heap) (b : board) (t : heap) :
  load_rows (h ++ map ORow b ++ t) (seq (length h) (length b)) = Some b.
Proof.
  revert h. induction b as [|r rest IH]; intros h; simpl; [reflexivity|].
  unfold load_row. rewrite nth_error_app2 by lia.
  replace (length h - length h)%nat with 0%nat by lia. simpl.
  specialize (IH (h ++ [ORow r])).
  rewrite <- app_assoc, length_app in IH. simpl in IH.
  replace (length h + 1)%nat with (S (length h)) in IH by lia.
  now rewrite IH.
Qed.

Lemma load_board_alloc (h : heap) (b : board) :
  load_board (h ++ map ORow b ++ [OGrid (seq (length h) (length b))])
             (length h + length b)%nat
  = Some b.
Proof.
  unfold load_board.
  rewrite app_assoc, nth_error_app2 by (rewrite length_app, length_map; lia).
  rewrite length_app, length_map.
  replace (length h + length b - (length h + length b))%nat with 0%nat by lia.
  simpl. rewrite <- app_assoc. apply load_rows_alloc.
Qed.

Lemma store_cell_alloc (h : heap) (b : board) (t : heap) (x y : nat)
  (m : mark) :
  (x < length b)%nat ->
  store_cell (h ++ map ORow b ++ t) (length h + x)%nat y m
  = h ++ map ORow (set_nth x (set_nth y (fun _ => m)) b) ++ t.
Proof.
  intros Hx. unfold store_cell.
  rewrite set_nth_app_r, set_nth_app_l by now rewrite length_map.
  now rewrite (set_nth_map ORow (set_nth y (fun _ => m))).
Qed.

(** The heap model of [result] does what the model on values does, on a
    fresh copy: the heap it returns is the one it received followed by the
    rows of the new board and the array of these rows. *)
Lemma result_heap_spec (h : heap) (boardRef : loc) (b : board) (a : action) :
  load_board h boardRef = Some b ->
  result_heap h boardRef a
  = match result b a with
    | Ret b' =>
        (h ++ map ORow b' ++ [OGrid (seq (length h) (length b))],
         Ret (length h + length b)%nat)
    | Throw e => (h, Throw e)
    | NoFuel => (h, NoFuel)
    end.
Proof.
  intros Hload. destruct a as [x y]. unfold result_heap, result.
  destruct (negb (includes acceptableValues x)
            || negb (includes acceptableValues y)); [reflexivity|].
  rewrite Hload. destruct (read b x y) as [cell|e|] eqn:Hread;
    cbn [bind]; try reflexivity.
  destruct (strict_eq cell (Val EMPTY)) eqn:Hcell; cbn [negb];
    [|reflexivity].
  apply strict_eq_Val in Hcell. subst cell.
  apply read_Val in Hread as (Hx & Hy & r & Hr & Hc).
  assert (Hlt : (Z.to_nat x < length b)%nat)
    by (apply nth_error_Some; congruence).
  rewrite map_id, length_app, length_map, <- app_assoc, load_board_alloc.
  rewrite seq_nth by assumption.
  now rewrite store_cell_alloc by assumption.
Qed.

Lemma load_rows_extend (h t : heap) (ls : list loc) (b : board) :
  load_rows h ls = Some b -> load_rows (h ++ t) ls = Some b.
Proof.
  revert b. induction ls as [|l rest IH]; intros b; simpl; [auto|].
  unfold load_row.
  destruct (nth_error h l) as [[r|ls']|] eqn:Hl; try discriminate.
  rewrite nth_error_app1 by (apply nth_error_Some; congruence).
  rewrite Hl. destruct (load_rows h rest) as [rs|]; [|discriminate].
  now rewrite (IH rs eq_refl).
Qed.

(** Allocation leaves the boards of the heap as they are. *)
Lemma load_board_extend (h t : heap) (l : loc) (b : board) :
  load_board h l = Some b -> load_board (h ++ t) l = Some b.
Proof.
  unfold load_board.
  destruct (nth_error h l) as [[r|ls]|] eqn:Hl; try discriminate.
  rewrite nth_error_app1 by (apply nth_error_Some; congruence).
  rewrite Hl. apply load_rows_extend.
Qed.

(** [result] writes to no array that existed before the call. *)
Lemma result_heap_frame (h : heap) (boardRef : loc) (b : board) (a : action)
  (h' : heap) (r : comp loc) :
  load_board h boardRef = Some b ->
  result_heap h boardRef a = (h', r) ->
  exists t, h' = h ++ t /\ ((forall l, r <> Ret l) -> t = []).
Proof.
  intros Hload Hrun. rewrite (result_heap_spec h boardRef b a Hload) in Hrun.
  destruct (result b a) as [b'|e|]; injection Hrun as <- <-.
  - eexists. split; [reflexivity|]. intros H. now elim (H _ eq_refl).
  - exists []. now rewrite app_nil_r.
  - exists []. now rewrite app_nil_r.
Qed.

(* ================================================================== *)
(** ** Cells of well-formed boards *)

Lemma read_cell_at_inv (b : board) (x y : Z) (c : mark) :
  wf_board b -> read b x y = Ret (Val c) -> cell_at b (x, y) = c.
Proof.
  intros Hwf H.
  assert (Hr : in_range (x, y)) by (eapply read_in_range; eauto).
  pose proof (read_cell_at b (x, y) Hwf Hr) as H'. simpl in H'. congruence.
Qed.

(** On a well-formed board [result] either makes the move or raises the
    error of an invalid action. *)
Lemma result_wf_cases (b : board) (x y : Z) :
  wf_board b ->
  (in_range (x, y) /\ cell_at b (x, y) = EMPTY
   /\ result b (x, y) = Ret (write b x y (player b)))
  \/ ((~ 0 <= x <= 2 \/ ~ 0 <= y <= 2 \/ cell_at b (x, y) <> EMPTY)
      /\ result b (x, y) = Throw InvalidAction).
Proof.
  intros Hwf.
  destruct (includes acceptableValues x) eqn:Ex.
  2:{ right. split.
      - left. intros H. apply includes_acceptable in H. congruence.
      - unfold result. now rewrite Ex. }
  destruct (includes acceptableValues y) eqn:Ey.
  2:{ right. split.
      - right. left. intros H. apply includes_acceptable in H. congruence.
      - unfold result. now rewrite Ex, Ey. }
  apply includes_acceptable in Ex as Hx. apply includes_acceptable in Ey as Hy.
  assert (Hr : in_range (x, y)) by (split; assumption).
  pose proof (read_cell_at b (x, y) Hwf Hr) as Hread. simpl in Hread.
  destruct (cell_at b (x, y)) eqn:Hc.
  - left. repeat split; try (simpl; lia). apply result_Ret. auto.
  - right. split; [right; right; discriminate|].
    unfold result. now rewrite Ex, Ey, Hread.
  - right. split; [right; right; discriminate|].
    unfold result. now rewrite Ex, Ey, Hread.
Qed.

Lemma cell_at_write (b : board) (x y : Z) (m : mark) (c : action) :
  wf_board b -> in_range (x, y) -> in_range c ->
  cell_at (write b x y m) c
  = if (fst c =? x) && (snd c =? y) then m else cell_at b c.
Proof.
  intros Hwf Hxy Hc.
  pose proof (read_cell_at b (x, y) Hwf Hxy) as Hold. simpl in Hold.
  pose proof (read_write b x y m (fst c) (snd c) _ Hold) as Hnew.
  rewrite (read_cell_at (write b x y m) c) in Hnew
    by (auto using write_wf).
  rewrite (read_cell_at b c) in Hnew by assumption.
  destruct ((fst c =? x) && (snd c =? y)); congruence.
Qed.

(** Every operation but [result] returns on a well-formed board. *)
Lemma operations_total (b : board) :
  wf_board b ->
  exists w t u m,
    winner b = Ret w /\ terminal b = Ret t /\ utility b = Ret u
    /\ minimax b = Ret m.
Proof.
  intros Hwf.
  rewrite winner_spec, utility_spec by assumption.
  destruct (terminal_total b Hwf) as [Ht|Ht].
  - do 4 eexists. repeat split; eauto. unfold minimax. now rewrite Ht.
  - destruct (minimax_spec b Hwf Ht) as (a & V & Hrun & _).
    do 4 eexists. repeat split; eauto.
Qed.

(* ================================================================== *)
(** ** The turns *)

Lemma reachable_turn (b : board) :
  reachable b ->
  (player b = X /\ count_mark X b = count_mark O b)
  \/ (player b = O /\ count_mark X b = S (count_mark O b)).
Proof.
  induction 1 as [|b a b' _ IH Hres]; [left; split; reflexivity|].
  rewrite (result_player b a b' Hres).
  rewrite (result_count_mark b a b' X Hres) by discriminate.
  rewrite (result_count_mark b a b' O Hres) by discriminate.
  destruct IH as [[-> ->]|[-> ->]]; simpl; [right|left]; split; auto.
Qed.

(* ================================================================== *)
(** ** The order of the moves *)

Lemma StronglySorted_app {A : Type} (R : A -> A -> Prop) (l1 l2 : list A) :
  StronglySorted R l1 -> StronglySorted R l2 ->
  (forall a c, In a l1 -> In c l2 -> R a c) ->
  StronglySorted R (l1 ++ l2).
Proof.
  intros H1 H2 H. induction H1 as [|a l1 Hs IH Ha]; simpl; [exact H2|].
  constructor.
  - apply IH. intros a' c Ha' Hc. apply H; [now right|assumption].
  - apply Forall_app. split; [exact Ha|].
    apply Forall_forall. intros c Hc. apply H; [now left|assumption].
Qed.

Lemma actions_row_sorted (i j : Z) (r : row) :
  StronglySorted row_major (actions_row i j r).
Proof.
  revert j. induction r as [|c rest IH]; intros j; simpl; [constructor|].
  destruct (mark_eqb c EMPTY); [|apply IH].
  constructor; [apply IH|]. apply Forall_forall. intros [x y] H.
  apply actions_row_In in H as (-> & Hy & _). right. simpl. lia.
Qed.

(** [actions] lists the moves in row-major order. *)
Lemma actions_sorted (b : board) : StronglySorted row_major (actions b).
Proof.
  unfold actions. generalize 0.
  induction b as [|r rest IH]; intros i; simpl; [constructor|].
  apply StronglySorted_app; [apply actions_row_sorted|apply IH|].
  intros [x y] [x' y'] H H'.
  apply actions_row_In in H as (-> & _).
  apply actions_from_In in H' as (Hx & _). left. simpl. lia.
Qed.

(* ================================================================== *)
(** ** The value of a position, from the search *)

Lemma game_value_by_max (b : board) (r : Z) :
  wf_board b -> player b = X ->
  (p <- maxValue (depth b) b NegInf PosInf ;; Ret (fst p)) = Ret (Fin r) ->
  game_value b = Ret r.
Proof.
  intros Hwf Hp Hrun.
  destruct (search_spec (length (actions b)) b Hwf eq_refl)
    as (V & HV & Hmax & _).
  destruct (Hmax Hp NegInf PosInf I) as (r' & act' & Hrun' & (_ & Hab & _) & _).
  unfold depth in Hrun. rewrite Hrun' in Hrun. injection Hrun as <-.
  unfold game_value, depth. rewrite HV. f_equal. exact (Hab I I).
Qed.

Lemma game_value_by_min (b : board) (r : Z) :
  wf_board b -> player b = O ->
  (p <- minValue (depth b) b NegInf PosInf ;; Ret (fst p)) = Ret (Fin r) ->
  game_value b = Ret r.
Proof.
  intros Hwf Hp Hrun.
  destruct (search_spec (length (actions b)) b Hwf eq_refl)
    as (V & HV & _ & Hmin).
  destruct (Hmin Hp NegInf PosInf I) as (r' & act' & Hrun' & (_ & Hab & _) & _).
  unfold depth in Hrun. rewrite Hrun' in Hrun. injection Hrun as <-.
  unfold game_value, depth. rewrite HV. f_equal. exact (Hab I I).
Qed.

(** The value of an opening move, by running the search on the position it
    leads to. *)
Ltac opening_value :=
  unfold move_value;
  match goal with
  | |- bind ?r _ = _ => let v := eval vm_compute in r in change r with v
  end;
  cbn [bind];
  apply game_value_by_min;
  [ split; [reflexivity|repeat constructor]
  | reflexivity
  | vm_compute; reflexivity ].

Lemma self_play_S (n : nat) (b : board) :
  self_play (S n) b
  = (t <- terminal b ;;
     if t then Ret b
     else m <- minimax b ;;
          match m with
          | Val a => rb <- result b a ;; self_play n rb
          | _ => Throw TypeError
          end).
Proof. reflexivity. Qed.

(** More fuel does not change the game that is played. *)
Lemma self_play_fuel (n : nat) (b final : board) :
  self_play n b = Ret final -> self_play (S n) b = Ret final.
Proof.
  revert b. induction n as [|n IH]; intros b H; [discriminate|].
  rewrite self_play_S in H |- *.
  destruct (terminal b) as [[|]| |]; cbn [bind] in *; try discriminate; auto.
  destruct (minimax b) as [[| |a]| |]; cbn [bind] in *; try discriminate.
  destruct (result b a) as [rb| |]; cbn [bind] in *; try discriminate.
  now apply IH.
Qed.

(* ================================================================== *)
(** ** The properties of the specification *)

(** C1: on every board reached by legal play on which the game is not over,
    [minimax] returns a move whose value is the value of the game: no move
    has a greater value when X is to play, none a smaller one when O is.
    The values are those of [value]: 1, 0 or -1, the score of a finished game
    (X won, draw, O won), maximised by X and minimised by O. *)
Theorem minimax_optimal (b : board) :
  legal_play b -> terminal b = Ret false ->
  exists a v,
    minimax b = Ret (Val a)
    /\ move_value b a = Ret v
    /\ game_value b = Ret v
    /\ (v = -1 \/ v = 0 \/ v = 1)
    /\ (player b = X -> forall a' v', move_value b a' = Ret v' -> v' <= v)
    /\ (player b = O -> forall a' v', move_value b a' = Ret v' -> v <= v')
    /\ (forall t, wf_board t -> terminal t = Ret true ->
                  game_value t = Ret (score (outcome t))).
Proof.
  intros Hplay Ht.
  assert (Hwf : wf_board b) by now apply reachable_wf, legal_play_reachable.
  destruct (best_move_optimal b Hwf Ht) as (a & v & H1 & _ & H2 & H3 & H4).
  exists a, v. split; [exact H1|]. split; [exact H2|]. split; [exact H3|].
  split; [now apply (game_value_range b)|]. split; [|split].
  - intros Hp a' v' H. now apply (H4 a' v' H).
  - intros Hp a' v' H. now apply (H4 a' v' H).
  - exact game_value_terminal.
Qed.

Lemma minimax_optimal_witness :
  legal_play initialState /\ terminal initialState = Ret false
  /\ exists a v,
       minimax initialState = Ret (Val a)
       /\ move_value initialState a = Ret v
       /\ game_value initialState = Ret v
       /\ (v = -1 \/ v = 0 \/ v = 1)
       /\ (player initialState = X ->
           forall a' v', move_value initialState a' = Ret v' -> v' <= v)
       /\ (player initialState = O ->
           forall a' v', move_value initialState a' = Ret v' -> v <= v')
       /\ (forall t, wf_board t -> terminal t = Ret true ->
                     game_value t = Ret (score (outcome t))).
Proof.
  split; [exact play_init|]. split; [reflexivity|].
  apply (minimax_optimal initialState play_init). reflexivity.
Defined.

(** C2: when both sides play the move of [minimax] from the initial board,
    the game ends on a full board without a winning line: a draw. *)
Theorem self_play_draw :
  self_play 10 initialState = Ret board_drawn
  /\ terminal board_drawn = Ret true
  /\ winner board_drawn = Ret Null
  /\ actions board_drawn = []
  /\ utility board_drawn = Ret 0
  /\ outcome board_drawn = Draw.
Proof. vm_compute. repeat split. Qed.

(** C3: on a well-formed board [result] raises its error exactly when a
    coordinate of the move is not 0, 1 or 2 or the cell is not empty, and it
    raises nothing else; the other operations return; and a call that raises
    leaves the heap, hence the board it was given, as it was. *)
Theorem result_fails_iff (b : board) (x y : Z) :
  wf_board b ->
  (result b (x, y) = Throw InvalidAction
   <-> (~ 0 <= x <= 2 \/ ~ 0 <= y <= 2 \/ cell_at b (x, y) <> EMPTY))
  /\ ((exists b', result b (x, y) = Ret b')
      \/ result b (x, y) = Throw InvalidAction)
  /\ (exists w t u m,
        winner b = Ret w /\ terminal b = Ret t /\ utility b = Ret u
        /\ minimax b = Ret m)
  /\ (forall h boardRef h' e,
        load_board h boardRef = Some b ->
        result_heap h boardRef (x, y) = (h', Throw e) ->
        h' = h /\ load_board h' boardRef = Some b).
Proof.
  intros Hwf. repeat split.
  - intros H.
    destruct (result_wf_cases b x y Hwf) as [(_ & _ & H')|[H' _]];
      [congruence|exact H'].
  - intros H.
    destruct (result_wf_cases b x y Hwf) as [([Hx Hy] & Hc & _)|[_ H']];
      [|exact H'].
    simpl in Hx, Hy. tauto.
  - destruct (result_wf_cases b x y Hwf) as [(_ & _ & H)|[_ H]]; eauto.
  - now apply operations_total.
  - rewrite (result_heap_spec h boardRef b (x, y) H) in H0.
    destruct (result b (x, y)); [discriminate| |discriminate].
    now injection H0 as <- _.
  - rewrite (result_heap_spec h boardRef b (x, y) H) in H0.
    destruct (result b (x, y)); [discriminate| |discriminate].
    now injection H0 as <- _.
Qed.

Lemma result_fails_iff_witness :
  wf_board board_x_to_win
  /\ result board_x_to_win (0, 0) = Throw InvalidAction
  /\ result board_x_to_win (3, 0) = Throw InvalidAction.
Proof.
  assert (Hwf : wf_board board_x_to_win)
    by (split; [reflexivity|repeat constructor]).
  split; [exact Hwf|]. split.
  - apply (result_fails_iff board_x_to_win 0 0 Hwf).
    right. right. discriminate.
  - apply (result_fails_iff board_x_to_win 3 0 Hwf). left. lia.
Defined.

(** C4: on a well-formed board a move to an empty cell with coordinates among
    0, 1 and 2 is made: [result] returns a board that has the mark of the side
    to play in that cell and the cells of the given board elsewhere; on the
    heap the new board is a fresh copy, and every array that existed before
    the call, the given board among them, is as it was. *)
Theorem result_frame (b : board) (x y : Z) :
  wf_board b -> 0 <= x <= 2 -> 0 <= y <= 2 -> cell_at b (x, y) = EMPTY ->
  exists b',
    result b (x, y) = Ret b'
    /\ wf_board b'
    /\ cell_at b' (x, y) = player b
    /\ (forall c, in_range c -> c <> (x, y) -> cell_at b' c = cell_at b c)
    /\ forall h boardRef,
         load_board h boardRef = Some b ->
         exists h' resultRef,
           result_heap h boardRef (x, y) = (h', Ret resultRef)
           /\ load_board h' resultRef = Some b'
           /\ load_board h' boardRef = Some b
           /\ forall l o, nth_error h l = Some o -> nth_error h' l = Some o.
Proof.
  intros Hwf Hx Hy Hc.
  assert (Hr : in_range (x, y)) by (split; assumption).
  destruct (result_wf_cases b x y Hwf) as [(_ & _ & Hres)|[H _]]; [|tauto].
  exists (write b x y (player b)). split; [exact Hres|]. split; [|split; [|split]].
  - now apply write_wf.
  - rewrite cell_at_write by assumption. simpl. now rewrite !Z.eqb_refl.
  - intros [x' y'] Hc' Hne. rewrite cell_at_write by assumption. simpl.
    destruct (Z.eqb_spec x' x) as [->|]; [|reflexivity].
    destruct (Z.eqb_spec y' y) as [->|]; [congruence|reflexivity].
  - intros h boardRef Hload.
    pose proof (result_heap_spec h boardRef b (x, y) Hload) as Hrun.
    rewrite Hres in Hrun. do 2 eexists. split; [exact Hrun|].
    assert (Hlen : length b = length (write b x y (player b)))
      by (unfold write; now rewrite set_nth_length).
    split; [|split].
    + rewrite Hlen. apply load_board_alloc.
    + now apply load_board_extend.
    + intros l o Hl. rewrite nth_error_app1; [exact Hl|].
      apply nth_error_Some. congruence.
Qed.

Lemma result_frame_witness :
  wf_board board_x_to_win
  /\ cell_at board_x_to_win (0, 2) = EMPTY
  /\ exists b', result board_x_to_win (0, 2) = Ret b'
                /\ cell_at b' (0, 2) = player board_x_to_win.
Proof.
  assert (Hwf : wf_board board_x_to_win)
    by (split; [reflexivity|repeat constructor]).
  split; [exact Hwf|]. split; [reflexivity|].
  destruct (result_frame board_x_to_win 0 2 Hwf) as (b' & H1 & _ & H2 & _);
    [lia|lia|reflexivity|].
  exists b'. split; assumption.
Defined.

(** C5: on a board on which the game is over, one with a won line or without
    an empty cell, [minimax] returns [null] and raises nothing; on a board
    reached by legal play on which the game is not over it returns a move
    that [result] accepts: coordinates among 0, 1 and 2, an empty cell. *)
Theorem minimax_accepted (b : board) :
  wf_board b ->
  (terminal b = Ret true <-> (winningLine b <> None \/ actions b = []))
  /\ (terminal b = Ret true -> minimax b = Ret Null)
  /\ (legal_play b -> terminal b = Ret false ->
      exists a b', minimax b = Ret (Val a) /\ result b a = Ret b'
                   /\ in_range a /\ cell_at b a = EMPTY).
Proof.
  intros Hwf. split; [|split].
  - rewrite terminal_spec by assumption. unfold outcome.
    destruct (winningLine b) as [[l m]|] eqn:E.
    + destruct (winningLine_mark b l m E) as [-> | ->];
        (split; [intros _; left; discriminate|reflexivity]).
    + destruct (actions b) as [|a rest]; simpl.
      * split; [now right|reflexivity].
      * split; [discriminate|]. intros [H|H]; [congruence|discriminate].
  - intros Ht. unfold minimax. now rewrite Ht.
  - intros _ Ht.
    destruct (best_move_optimal b Hwf Ht) as (a & v & Hrun & Hin & _).
    destruct a as [x y].
    destruct (result_wf_cases b x y Hwf) as [(Hr & Hc & Hres)|[_ Hres]].
    + eauto 6.
    + apply result_accepts in Hin as [b' Hb']; [congruence|assumption].
Qed.

Lemma minimax_accepted_witness :
  wf_board board_drawn /\ minimax board_drawn = Ret Null
  /\ legal_play initialState
  /\ exists a b', minimax initialState = Ret (Val a)
                  /\ result initialState a = Ret b'.
Proof.
  assert (Hwf : wf_board board_drawn)
    by (split; [reflexivity|repeat constructor]).
  split; [exact Hwf|]. split.
  - apply (minimax_accepted board_drawn Hwf). reflexivity.
  - split; [exact play_init|].
    destruct (minimax_accepted initialState initialState_wf) as (_ & _ & H).
    destruct (H play_init eq_refl) as (a & b' & H1 & H2 & _).
    exists a, b'. split; assumption.
Defined.

(** C6: on the initial board [minimax] returns the move (0, 0).  The moves
    are tried in row-major order and a move replaces the best one only when
    its value is strictly better, so that on every board the move returned is
    the first, in that order, whose value is the value of the game; all nine
    opening moves have the value 0 of the game, and (0, 0) is the first. *)
Theorem minimax_initial :
  minimax initialState = Ret (Val (0, 0))
  /\ actions initialState
     = [(0, 0); (0, 1); (0, 2); (1, 0); (1, 1); (1, 2); (2, 0); (2, 1); (2, 2)]
  /\ game_value initialState = Ret 0
  /\ (forall a, In a (actions initialState) ->
                move_value initialState a = Ret 0)
  /\ (forall b, wf_board b -> terminal b = Ret false ->
        StronglySorted row_major (actions b)
        /\ exists a v pre post,
             minimax b = Ret (Val a)
             /\ actions b = pre ++ a :: post
             /\ game_value b = Ret v
             /\ move_value b a = Ret v
             /\ forall c, In c pre -> move_value b c <> Ret v).
Proof.
  split; [vm_compute; reflexivity|]. split; [reflexivity|]. split; [|split].
  - apply game_value_by_max;
      [apply initialState_wf|reflexivity|vm_compute; reflexivity].
  - intros a Ha. simpl in Ha.
    repeat (destruct Ha as [<-|Ha]; [opening_value|]). destruct Ha.
  - intros b Hwf Ht. split; [apply actions_sorted|].
    now apply minimax_first_optimal.
Qed.

Lemma minimax_initial_witness :
  wf_board initialState /\ terminal initialState = Ret false
  /\ exists a v pre post,
       minimax initialState = Ret (Val a)
       /\ actions initialState = pre ++ a :: post
       /\ game_value initialState = Ret v
       /\ move_value initialState a = Ret v
       /\ forall c, In c pre -> move_value initialState c <> Ret v.
Proof.
  split; [exact initialState_wf|]. split; [reflexivity|].
  destruct minimax_initial as (_ & _ & _ & _ & H).
  exact (proj2 (H initialState initialState_wf eq_refl)).
Defined.

Lemma board_x_to_win_legal : legal_play board_x_to_win.
Proof.
  apply (play_move [[X; X; EMPTY]; [O; EMPTY; EMPTY]; [EMPTY; EMPTY; EMPTY]]
                   (1, 1)); [|reflexivity|reflexivity].
  apply (play_move [[X; EMPTY; EMPTY]; [O; EMPTY; EMPTY]; [EMPTY; EMPTY; EMPTY]]
                   (0, 1)); [|reflexivity|reflexivity].
  apply (play_move [[X; EMPTY; EMPTY]; [EMPTY; EMPTY; EMPTY];
                    [EMPTY; EMPTY; EMPTY]]
                   (1, 0)); [|reflexivity|reflexivity].
  apply (play_move initialState (0, 0)); [|reflexivity|reflexivity].
  exact play_init.
Qed.

(** C7: on the board with X, X and an empty cell in the top row and O, O and
    an empty cell in the middle row, which legal play reaches, it is the turn
    of X and [minimax] returns (0, 2), the move that completes the top row
    and wins. *)
Theorem minimax_takes_win :
  legal_play board_x_to_win
  /\ occupied board_x_to_win = 4%nat
  /\ player board_x_to_win = X
  /\ minimax board_x_to_win = Ret (Val (0, 2))
  /\ result board_x_to_win (0, 2) = Ret board_x_won
  /\ winner board_x_won = Ret (Val X)
  /\ highlighted board_x_won = Ret [(0, 0); (0, 1); (0, 2)].
Proof.
  split; [exact board_x_to_win_legal|]. vm_compute. repeat split.
Qed.

(** C8, as stated, fails: on the board with X, X, X in the top row the
    [winningLine] of the specification hands over the three cells of the row
    with the mark X, and [winner] hands over the mark X alone. *)
Lemma winner_returns_no_line :
  returned_by_winningLine board_x_won = RLine [(0, 0); (0, 1); (0, 2)] X
  /\ returned_by_winner board_x_won = Ret (RMark X)
  /\ returned_by_winner board_x_won
     <> Ret (returned_by_winningLine board_x_won).
Proof. vm_compute. repeat split. discriminate. Qed.

(** C8, amended: [winner] goes through the eight lines, the rows, the columns
    and the two diagonals in this order, and at the first line whose cells
    are non-empty and identical it highlights the three cells of the line and
    returns their mark, the mark alone; without such a line it highlights
    nothing and returns [null].  On the board with X, X, X in the top row it
    returns X and highlights (0, 0), (0, 1), (0, 2), and [utility] is 1. *)
Theorem winner_returns_mark (b : board) :
  wf_board b ->
  winningConditions
  = [ [(0, 0); (0, 1); (0, 2)]; [(1, 0); (1, 1); (1, 2)];
      [(2, 0); (2, 1); (2, 2)]; [(0, 0); (1, 0); (2, 0)];
      [(0, 1); (1, 1); (2, 1)]; [(0, 2); (1, 2); (2, 2)];
      [(0, 0); (1, 1); (2, 2)]; [(0, 2); (1, 1); (2, 0)] ]
  /\ (forall l m, winningLine b = Some (l, m) ->
        winner b = Ret (Val m) /\ highlighted b = Ret l
        /\ returned_by_winner b = Ret (RMark m))
  /\ (winningLine b = None ->
      winner b = Ret Null /\ highlighted b = Ret []
      /\ returned_by_winner b = Ret RNull)
  /\ winner board_x_won = Ret (Val X)
  /\ highlighted board_x_won = Ret [(0, 0); (0, 1); (0, 2)]
  /\ utility board_x_won = Ret 1.
Proof.
  intros Hwf. split; [reflexivity|].
  unfold returned_by_winner, winner, highlighted.
  rewrite winner_run_spec by assumption.
  split; [|split; [|vm_compute; repeat split]].
  - intros l m ->. simpl. repeat split.
  - intros ->. simpl. repeat split.
Qed.

Lemma winner_returns_mark_witness :
  wf_board board_x_won
  /\ winningLine board_x_won = Some ([(0, 0); (0, 1); (0, 2)], X)
  /\ winner board_x_won = Ret (Val X)
  /\ highlighted board_x_won = Ret [(0, 0); (0, 1); (0, 2)].
Proof.
  assert (Hwf : wf_board board_x_won)
    by (split; [reflexivity|repeat constructor]).
  split; [exact Hwf|]. split; [reflexivity|].
  destruct (winner_returns_mark board_x_won Hwf) as (_ & H & _).
  destruct (H [(0, 0); (0, 1); (0, 2)] X eq_refl) as (H1 & H2 & _).
  split; assumption.
Defined.

(** [utility] alone returns the same number on the drawn board and on the
    initial board, whose outcomes differ. *)
Lemma utility_same_for_draw_and_unfinished :
  utility board_drawn = utility initialState
  /\ outcome board_drawn = Draw
  /\ outcome initialState = InProgress
  /\ outcome board_drawn <> outcome initialState.
Proof. vm_compute. repeat split. discriminate. Qed.

(** [utility] has three values: 1 when the winning line is of X, -1 when it
    is of O and 0 when there is none, on a drawn board as on an unfinished
    one; the two are told apart by [terminal]. *)
Lemma utility_three_valued (b : board) :
  wf_board b ->
  utility b = Ret (score (outcome b))
  /\ terminal b = Ret match outcome b with InProgress => false | _ => true end
  /\ (utility b = Ret 1 <-> exists l, winningLine b = Some (l, X))
  /\ (utility b = Ret (-1) <-> exists l, winningLine b = Some (l, O))
  /\ (utility b = Ret 0 <-> winningLine b = None)
  /\ (outcome b = Draw <-> utility b = Ret 0 /\ terminal b = Ret true)
  /\ (outcome b = InProgress <-> utility b = Ret 0 /\ terminal b = Ret false).
Proof.
  intros Hwf. rewrite utility_spec, terminal_spec by assumption.
  split; [reflexivity|]. split; [reflexivity|]. unfold outcome.
  destruct (winningLine b) as [[l m]|] eqn:E.
  - destruct (winningLine_mark b l m E) as [-> | ->]; simpl;
      repeat split; intros; try discriminate; eauto;
      repeat match goal with
             | H : exists _, _ |- _ => destruct H
             | H : _ /\ _ |- _ => destruct H
             end; try discriminate.
  - destruct (length (actions b) =? 0)%nat; simpl;
      repeat split; intros; try discriminate; eauto;
      repeat match goal with
             | H : exists _, _ |- _ => destruct H
             | H : _ /\ _ |- _ => destruct H
             end; try discriminate.
Qed.

(** C9: the outcome that [terminal] and [utility] give for a well-formed
    board is one of four: X wins when the winning line is of X, O wins when it
    is of O, a draw when the game is over without a winning line, and in
    progress when the game is not over; a drawn board and an unfinished one
    are told apart. *)
Theorem outcome_four_valued (b : board) :
  wf_board b ->
  outcome_of_code b = Ret (outcome b)
  /\ (outcome b = XWins <-> exists l, winningLine b = Some (l, X))
  /\ (outcome b = OWins <-> exists l, winningLine b = Some (l, O))
  /\ (outcome b = Draw <-> terminal b = Ret true /\ winningLine b = None)
  /\ (outcome b = InProgress <-> terminal b = Ret false).
Proof.
  intros Hwf. unfold outcome_of_code.
  rewrite utility_spec, terminal_spec by assumption. unfold outcome.
  destruct (winningLine b) as [[l m]|] eqn:E.
  - destruct (winningLine_mark b l m E) as [-> | ->]; simpl;
      (split; [reflexivity|]);
      repeat split; intros; try discriminate; eauto;
      repeat match goal with
             | H : exists _, _ |- _ => destruct H
             | H : _ /\ _ |- _ => destruct H
             end; try discriminate.
  - destruct (length (actions b) =? 0)%nat; simpl;
      (split; [reflexivity|]);
      repeat split; intros; try discriminate; eauto;
      repeat match goal with
             | H : exists _, _ |- _ => destruct H
             | H : _ /\ _ |- _ => destruct H
             end; try discriminate.
Qed.

Lemma outcome_four_valued_witness :
  wf_board board_drawn /\ wf_board board_x_won
  /\ outcome_of_code board_drawn = Ret Draw
  /\ outcome_of_code initialState = Ret InProgress
  /\ outcome_of_code board_x_won = Ret XWins
  /\ outcome_of_code board_o_won = Ret OWins.
Proof.
  assert (Hd : wf_board board_drawn)
    by (split; [reflexivity|repeat constructor]).
  assert (Hx : wf_board board_x_won)
    by (split; [reflexivity|repeat constructor]).
  assert (Ho : wf_board board_o_won)
    by (split; [reflexivity|repeat constructor]).
  split; [exact Hd|]. split; [exact Hx|].
  split; [exact (proj1 (outcome_four_valued board_drawn Hd))|].
  split; [exact (proj1 (outcome_four_valued initialState initialState_wf))|].
  split; [exact (proj1 (outcome_four_valued board_x_won Hx))|].
  exact (proj1 (outcome_four_valued board_o_won Ho)).
Defined.

(** C10: on every board reached from the initial one by calls of [result]
    there are as many X as O, or one X more; it is the turn of X exactly when
    the number of occupied cells is even, that is when there are as many X as
    O; and a move places the mark of the side to play and passes the turn to
    the other side. *)
Theorem reachable_alternates (b : board) :
  reachable b ->
  (Z.of_nat (count_mark X b) - Z.of_nat (count_mark O b) = 0
   \/ Z.of_nat (count_mark X b) - Z.of_nat (count_mark O b) = 1)
  /\ (player b = X <-> Nat.even (occupied b) = true)
  /\ (player b = X <-> count_mark X b = count_mark O b)
  /\ (player b = O <-> count_mark X b = S (count_mark O b))
  /\ forall a b', result b a = Ret b' ->
       cell_at b' a = player b /\ player b' = opponent (player b).
Proof.
  intros Hr. pose proof (reachable_wf b Hr) as Hwf.
  pose proof (reachable_turn b Hr) as Hturn.
  repeat split.
  - destruct Hturn as [[_ H]|[_ H]]; lia.
  - rewrite player_spec. now destruct (Nat.even (occupied b)).
  - rewrite player_spec. now destruct (Nat.even (occupied b)).
  - destruct Hturn as [[_ H]|[H _]]; congruence.
  - destruct Hturn as [[H _]|[_ H]]; [congruence|lia].
  - destruct Hturn as [[H _]|[_ H]]; [congruence|auto].
  - destruct Hturn as [[_ H]|[H _]]; [lia|congruence].
  - destruct a as [x y]. apply result_Ret in H as (Hx & Hy & _ & ->).
    rewrite cell_at_write by (auto; split; assumption).
    simpl. now rewrite !Z.eqb_refl.
  - eapply result_player; eauto.
Qed.

Lemma board_x_won_reachable : reachable board_x_won.
Proof.
  apply (reach_move board_x_to_win (0, 2)); [|reflexivity].
  exact (legal_play_reachable _ board_x_to_win_legal).
Qed.

Lemma reachable_alternates_witness :
  reachable board_x_won
  /\ count_mark X board_x_won = 3%nat /\ count_mark O board_x_won = 2%nat
  /\ (Z.of_nat (count_mark X board_x_won)
      - Z.of_nat (count_mark O board_x_won) = 0
      \/ Z.of_nat (count_mark X board_x_won)
         - Z.of_nat (count_mark O board_x_won) = 1)
  /\ (player board_x_won = O
      <-> count_mark X board_x_won = S (count_mark O board_x_won))
  /\ (forall a b', result board_x_won a = Ret b' ->
                   cell_at b' a = player board_x_won
                   /\ player b' = opponent (player board_x_won)).
Proof.
  split; [exact board_x_won_reachable|].
  split; [reflexivity|]. split; [reflexivity|].
  destruct (reachable_alternates board_x_won board_x_won_reachable)
    as (H1 & _ & _ & H2 & H3).
  split; [exact H1|]. split; [exact H2|exact H3].
Defined.

(* ================================================================== *)
(** ** Further properties of the board *)

(** X1: whatever the board, [actions] lists exactly the coordinates at which
    the board reads as empty, each once, in row-major order. *)
Theorem actions_exact (b : board) :
  (forall x y, In (x, y) (actions b) <-> read b x y = Ret (Val EMPTY))
  /\ StronglySorted row_major (actions b)
  /\ NoDup (actions b).
Proof.
  split; [intros x y; apply actions_In|]. split; [apply actions_sorted|].
  pose proof (actions_sorted b) as H.
  induction H as [|a l Hs IH Ha]; constructor; [|exact IH].
  intros Hin. rewrite Forall_forall in Ha. specialize (Ha a Hin).
  unfold row_major in Ha. lia.
Qed.

(** X2: on a well-formed board the moves of [actions] and the occupied cells
    are nine together. *)
Theorem actions_plus_occupied (b : board) :
  wf_board b -> (length (actions b) + occupied b = 9)%nat.
Proof. apply actions_occupied. Qed.

Lemma actions_plus_occupied_witness :
  wf_board board_x_to_win
  /\ (length (actions board_x_to_win) + occupied board_x_to_win = 9)%nat.
Proof.
  assert (Hwf : wf_board board_x_to_win)
    by (split; [reflexivity|repeat constructor]).
  split; [exact Hwf|]. exact (actions_plus_occupied board_x_to_win Hwf).
Defined.

(** X3: a move that [result] has made cannot be made again on the board it
    returned: the second call throws. *)
Theorem result_twice_fails (b : board) (a : action) (b' : board) :
  result b a = Ret b' -> result b' a = Throw InvalidAction.
Proof.
  destruct a as [x y]. intros H.
  apply result_Ret in H as (Hx & Hy & Hread & ->).
  pose proof (read_write b x y (player b) x y EMPTY Hread) as Hnew.
  rewrite !Z.eqb_refl in Hnew. simpl in Hnew.
  unfold result.
  rewrite (proj2 (includes_acceptable x) Hx),
          (proj2 (includes_acceptable y) Hy). simpl.
  rewrite Hnew. simpl.
  destruct (player b) eqn:E; [now apply player_not_empty in E| |];
    reflexivity.
Qed.

Lemma result_twice_fails_witness :
  result initialState (1, 1)
  = Ret [[EMPTY; EMPTY; EMPTY]; [EMPTY; X; EMPTY]; [EMPTY; EMPTY; EMPTY]]
  /\ result [[EMPTY; EMPTY; EMPTY]; [EMPTY; X; EMPTY]; [EMPTY; EMPTY; EMPTY]]
            (1, 1)
     = Throw InvalidAction.
Proof.
  split; [reflexivity|].
  exact (result_twice_fails initialState (1, 1) _ eq_refl).
Defined.

(** X4: the moves that are left after a move are the moves there were, but
    for the one just made. *)
Theorem actions_after_result (b : board) (a : action) (b' : board) :
  result b a = Ret b' ->
  (forall c, In c (actions b') <-> In c (actions b) /\ c <> a)
  /\ length (actions b) = S (length (actions b')).
Proof.
  intros H. split; [|eapply result_actions_length; eauto].
  destruct a as [x y]. apply result_Ret in H as (Hx & Hy & Hread & ->).
  intros [x' y']. rewrite !actions_In.
  rewrite (read_write b x y (player b) x' y' EMPTY Hread).
  destruct (Z.eqb_spec x' x) as [->|Hne]; simpl.
  - destruct (Z.eqb_spec y' y) as [->|Hne]; simpl.
    + split.
      * intros E. injection E as E. now apply player_not_empty in E.
      * intros [_ E]. congruence.
    + split; [|tauto]. intros E. split; [exact E|congruence].
  - split; [|tauto]. intros E. split; [exact E|congruence].
Qed.

Lemma actions_after_result_witness :
  result initialState (1, 1)
  = Ret [[EMPTY; EMPTY; EMPTY]; [EMPTY; X; EMPTY]; [EMPTY; EMPTY; EMPTY]]
  /\ length (actions initialState)
     = S (length (actions [[EMPTY; EMPTY; EMPTY]; [EMPTY; X; EMPTY];
                           [EMPTY; EMPTY; EMPTY]])).
Proof.
  split; [reflexivity|].
  exact (proj2 (actions_after_result initialState (1, 1) _ eq_refl)).
Defined.

(* ================================================================== *)
(** ** Lines *)

Lemma line_won_iff (b : board) (l : list action) :
  line_won b l = true
  <-> l <> [] /\ exists m, m <> EMPTY /\ forall c, In c l -> cell_at b c = m.
Proof.
  unfold line_won. destruct l as [|c0 rest]; simpl.
  - split; [discriminate|]. intros [H _]. congruence.
  - rewrite andb_true_iff, negb_true_iff, forallb_forall. split.
    + intros [H0 Hrest]. split; [discriminate|].
      exists (cell_at b c0). split.
      * intros E. unfold is_empty in H0. rewrite E in H0. discriminate.
      * intros c [<-|Hc]; [reflexivity|].
        symmetry. apply mark_eqb_eq, Hrest, in_map, Hc.
    + intros (_ & m & Hm & Hall). split.
      * rewrite (Hall c0 (or_introl eq_refl)). unfold is_empty.
        destruct m; [congruence|reflexivity|reflexivity].
      * intros m' Hm'. apply in_map_iff in Hm' as (c & <- & Hc).
        rewrite (Hall c0 (or_introl eq_refl)), (Hall c (or_intror Hc)).
        apply mark_eqb_refl.
Qed.

(** The eight lines of [winner] are the rows, the columns and the two
    diagonals. *)
Lemma three_in_line_iff (b : board) (m : mark) :
  three_in_line b m
  <-> exists l, In l winningConditions /\ forall c, In c l -> cell_at b c = m.
Proof.
  unfold three_in_line, winningConditions. split.
  - intros [(r & Hr & H)|[(c & Hc & H)|[H|H]]].
    + assert (Hcases : r = 0 \/ r = 1 \/ r = 2) by lia.
      exists [(r, 0); (r, 1); (r, 2)]. split.
      * destruct Hcases as [-> | [-> | ->]]; simpl; tauto.
      * intros c [<-|[<-|[<-|[]]]]; apply H; lia.
    + assert (Hcases : c = 0 \/ c = 1 \/ c = 2) by lia.
      exists [(0, c); (1, c); (2, c)]. split.
      * destruct Hcases as [-> | [-> | ->]]; simpl; tauto.
      * intros c' [<-|[<-|[<-|[]]]]; apply H; lia.
    + eexists. split; [simpl; do 6 right; left; reflexivity|].
      intros c [<-|[<-|[<-|[]]]]; apply H; lia.
    + eexists. split; [simpl; do 7 right; left; reflexivity|].
      intros c [<-|[<-|[<-|[]]]];
        [apply (H 0)|apply (H 1)|apply (H 2)]; lia.
  - intros (l & Hl & H). simpl in Hl.
    assert (Hi : forall i, 0 <= i <= 2 -> i = 0 \/ i = 1 \/ i = 2)
      by (intros; lia).
    destruct Hl as [<-|[<-|[<-|[<-|[<-|[<-|[<-|[<-|[]]]]]]]]].
    + left. exists 0. split; [lia|]. intros c Hc.
      destruct (Hi c Hc) as [-> | [-> | ->]]; apply H; simpl; tauto.
    + left. exists 1. split; [lia|]. intros c Hc.
      destruct (Hi c Hc) as [-> | [-> | ->]]; apply H; simpl; tauto.
    + left. exists 2. split; [lia|]. intros c Hc.
      destruct (Hi c Hc) as [-> | [-> | ->]]; apply H; simpl; tauto.
    + right. left. exists 0. split; [lia|]. intros r Hr.
      destruct (Hi r Hr) as [-> | [-> | ->]]; apply H; simpl; tauto.
    + right. left. exists 1. split; [lia|]. intros r Hr.
      destruct (Hi r Hr) as [-> | [-> | ->]]; apply H; simpl; tauto.
    + right. left. exists 2. split; [lia|]. intros r Hr.
      destruct (Hi r Hr) as [-> | [-> | ->]]; apply H; simpl; tauto.
    + right. right. left. intros i Hr.
      destruct (Hi i Hr) as [-> | [-> | ->]]; apply H; simpl; tauto.
    + right. right. right. intros i Hr.
      destruct (Hi i Hr) as [-> | [-> | ->]]; apply H; simpl; tauto.
Qed.

Lemma winningLine_Some (b : board) (l : list action) (m : mark) :
  winningLine b = Some (l, m) ->
  In l winningConditions /\ m <> EMPTY
  /\ forall c, In c l -> cell_at b c = m.
Proof.
  unfold winningLine.
  destruct (find (line_won b) winningConditions) as [l'|] eqn:E;
    [|discriminate].
  intros H. injection H as <- <-. apply find_some in E as [Hin Hwon].
  split; [exact Hin|].
  apply line_won_iff in Hwon as (Hne & m & Hm & Hall).
  destruct l' as [|c0 rest]; [congruence|]. simpl.
  rewrite (Hall c0 (or_introl eq_refl)). auto.
Qed.

Lemma winningLine_None (b : board) (l : list action) :
  winningLine b = None -> In l winningConditions -> line_won b l = false.
Proof.
  unfold winningLine.
  destruct (find (line_won b) winningConditions) as [l'|] eqn:E;
    [discriminate|].
  intros _ Hin. exact (find_none _ _ E l Hin).
Qed.

Lemma winningConditions_nonempty (l : list action) :
  In l winningConditions -> l <> [] /\ Forall in_range l.
Proof.
  intros H. pose proof winningConditions_triples as Ht.
  rewrite Forall_forall in Ht.
  destruct (Ht l H) as (c1 & c2 & c3 & -> & H1 & H2 & H3).
  split; [discriminate|]. auto.
Qed.

(** X5: on a well-formed board [winner] returns a mark exactly when a row, a
    column or a diagonal holds three times the same mark, and then it returns
    the mark of such a line; it returns [null] exactly when there is no such
    line. *)
Theorem winner_three_in_line (b : board) :
  wf_board b ->
  (forall m, winner b = Ret (Val m) -> m <> EMPTY /\ three_in_line b m)
  /\ ((exists m, m <> EMPTY /\ three_in_line b m)
      -> exists m, winner b = Ret (Val m))
  /\ (winner b = Ret Null
      <-> ~ exists m, m <> EMPTY /\ three_in_line b m).
Proof.
  intros Hwf. rewrite winner_spec by assumption.
  assert (Hline : (exists m, m <> EMPTY /\ three_in_line b m)
                  -> exists l m, winningLine b = Some (l, m)).
  { intros (m & Hm & H). apply three_in_line_iff in H as (l & Hl & Hall).
    destruct (winningLine b) as [[l' m']|] eqn:E; [eauto|].
    pose proof (winningLine_None b l E Hl) as Hno.
    assert (Hyes : line_won b l = true).
    { apply line_won_iff. split; [now apply winningConditions_nonempty|].
      eauto. }
    congruence. }
  split; [|split].
  - intros m H. destruct (winningLine b) as [[l m']|] eqn:E; [|discriminate].
    injection H as ->. apply winningLine_Some in E as (Hl & Hm & Hall).
    split; [exact Hm|]. apply three_in_line_iff. eauto.
  - intros H. destruct (Hline H) as (l & m & ->). eauto.
  - split.
    + intros H Hex. destruct (Hline Hex) as (l & m & E).
      rewrite E in H. discriminate.
    + intros H. destruct (winningLine b) as [[l m]|] eqn:E; [|reflexivity].
      exfalso. apply H. apply winningLine_Some in E as (Hl & Hm & Hall).
      exists m. split; [exact Hm|]. apply three_in_line_iff. eauto.
Qed.

Lemma winner_three_in_line_witness :
  wf_board board_x_won
  /\ winner board_x_won = Ret (Val X)
  /\ three_in_line board_x_won X.
Proof.
  assert (Hwf : wf_board board_x_won)
    by (split; [reflexivity|repeat constructor]).
  split; [exact Hwf|]. split; [reflexivity|].
  exact (proj2 (proj1 (winner_three_in_line board_x_won Hwf) X eq_refl)).
Defined.

Lemma action_eq_dec (a c : action) : {a = c} + {a <> c}.
Proof. decide equality; apply Z.eq_dec. Qed.

Lemma opponent_involutive (b : board) :
  opponent (opponent (player b)) = player b.
Proof. now destruct (player_cases b) as [-> | ->]. Qed.

Lemma terminal_true_cases (b : board) :
  wf_board b ->
  (terminal b = Ret true <-> (winningLine b <> None \/ actions b = [])).
Proof.
  intros Hwf. rewrite terminal_spec by assumption. unfold outcome.
  destruct (winningLine b) as [[l m]|] eqn:E.
  - destruct (winningLine_mark b l m E) as [-> | ->];
      (split; [intros _; left; discriminate|reflexivity]).
  - destruct (actions b) as [|a rest]; simpl.
    + split; [now right|reflexivity].
    + split; [discriminate|]. intros [H|H]; [congruence|discriminate].
Qed.

(** A line that is won on a board is the first won line or comes after it. *)
Lemma line_won_terminal (b : board) (l : list action) (m : mark) :
  wf_board b -> In l winningConditions -> m <> EMPTY ->
  (forall c, In c l -> cell_at b c = m) ->
  terminal b = Ret true.
Proof.
  intros Hwf Hl Hm Hall. apply terminal_true_cases; [assumption|]. left.
  intros E. pose proof (winningLine_None b l E Hl) as Hno.
  assert (Hyes : line_won b l = true).
  { apply line_won_iff. split; [now apply winningConditions_nonempty|eauto]. }
  congruence.
Qed.

Lemma cell_at_result (b : board) (a : action) (b' : board) (c : action) :
  wf_board b -> result b a = Ret b' -> in_range c ->
  cell_at b a = EMPTY
  /\ cell_at b' c = if action_eq_dec c a then player b else cell_at b c.
Proof.
  intros Hwf H Hc. destruct a as [x y].
  apply result_Ret in H as (Hx & Hy & Hread & ->).
  split; [now apply read_cell_at_inv|].
  rewrite cell_at_write by (auto; split; assumption).
  destruct c as [x' y']. simpl.
  destruct (action_eq_dec (x', y') (x, y)) as [E|E].
  - injection E as -> ->. now rewrite !Z.eqb_refl.
  - destruct (Z.eqb_spec x' x) as [->|]; [|reflexivity].
    destruct (Z.eqb_spec y' y) as [->|]; [congruence|reflexivity].
Qed.

Lemma legal_play_line (b : board) (l : list action) (m : mark) :
  legal_play b -> In l winningConditions -> m <> EMPTY ->
  (forall c, In c l -> cell_at b c = m) ->
  m = opponent (player b).
Proof.
  intros Hplay Hl Hm Hall.
  destruct (winningConditions_nonempty l Hl) as [Hne Hrange].
  rewrite Forall_forall in Hrange.
  destruct Hplay as [|b a b' Hplay Ht Hres].
  - destruct l as [|c rest]; [congruence|].
    pose proof (Hall c (or_introl eq_refl)) as Hc.
    pose proof (Hrange c (or_introl eq_refl)) as [Hx Hy].
    destruct c as [x y]. simpl in Hx, Hy.
    assert (Hcases : (x = 0 \/ x = 1 \/ x = 2) /\ (y = 0 \/ y = 1 \/ y = 2))
      by lia.
    destruct Hcases as [[-> | [-> | ->]] [-> | [-> | ->]]];
      vm_compute in Hc; congruence.
  - assert (Hwf : wf_board b) by now apply reachable_wf, legal_play_reachable.
    rewrite (result_player b a b' Hres), opponent_involutive.
    destruct (in_dec action_eq_dec a l) as [Hin|Hout].
    + pose proof (Hall a Hin) as Ha.
      destruct (cell_at_result b a b' a Hwf Hres (Hrange a Hin)) as [_ Hnew].
      destruct (action_eq_dec a a); congruence.
    + exfalso.
      assert (Hold : forall c, In c l -> cell_at b c = m).
      { intros c Hc.
        destruct (cell_at_result b a b' c Hwf Hres (Hrange c Hc))
          as [_ Hnew].
        destruct (action_eq_dec c a) as [->|]; [contradiction|].
        rewrite <- Hnew. now apply Hall. }
      pose proof (line_won_terminal b l m Hwf Hl Hm Hold). congruence.
Qed.

(** X6: in legal play the last move is part of every line that is won, so
    that a line of three is of the mark of the side that has just played;
    [winner] returns that mark; and no board has a line of X and a line of
    O. *)
Theorem legal_play_winner (b : board) :
  legal_play b ->
  (forall m, m <> EMPTY -> three_in_line b m -> m = opponent (player b))
  /\ (forall m, winner b = Ret (Val m) -> m = opponent (player b))
  /\ ~ (three_in_line b X /\ three_in_line b O).
Proof.
  intros Hplay.
  assert (Hwf : wf_board b) by now apply reachable_wf, legal_play_reachable.
  assert (Hline : forall m, m <> EMPTY -> three_in_line b m ->
                            m = opponent (player b)).
  { intros m Hm H. apply three_in_line_iff in H as (l & Hl & Hall).
    eapply legal_play_line; eauto. }
  split; [exact Hline|]. split.
  - intros m H. rewrite winner_spec in H by assumption.
    destruct (winningLine b) as [[l m']|] eqn:E; [|discriminate].
    injection H as ->. apply winningLine_Some in E as (Hl & Hm & Hall).
    eapply legal_play_line; eauto.
  - intros [HX HO].
    pose proof (Hline X ltac:(discriminate) HX).
    pose proof (Hline O ltac:(discriminate) HO). congruence.
Qed.

Lemma legal_play_winner_witness :
  legal_play board_x_to_win
  /\ ~ (three_in_line board_x_to_win X /\ three_in_line board_x_to_win O).
Proof.
  split; [exact board_x_to_win_legal|].
  exact (proj2 (proj2 (legal_play_winner board_x_to_win
                         board_x_to_win_legal))).
Defined.

(** X7: [result] also moves on a board on which the game is over, when a cell
    is empty; the game is then still over on the board it returns. *)
Theorem terminal_after_result (b : board) (a : action) (b' : board) :
  wf_board b -> terminal b = Ret true -> result b a = Ret b' ->
  terminal b' = Ret true.
Proof.
  intros Hwf Ht Hres.
  apply terminal_true_cases in Ht as [Hline|Hfull]; [| |assumption].
  - destruct (winningLine b) as [[l m]|] eqn:E; [|congruence].
    apply winningLine_Some in E as (Hl & Hm & Hall).
    destruct (winningConditions_nonempty l Hl) as [_ Hrange].
    rewrite Forall_forall in Hrange.
    apply (line_won_terminal b' l m); auto; [eapply result_wf; eauto|].
    intros c Hc.
    destruct (cell_at_result b a b' c Hwf Hres (Hrange c Hc)) as [Hempty Hnew].
    destruct (action_eq_dec c a) as [->|]; [|rewrite Hnew; auto].
    rewrite (Hall a Hc) in Hempty. congruence.
  - assert (Hin : In a (actions b)) by (apply result_accepts; eauto).
    rewrite Hfull in Hin. destruct Hin.
Qed.

Lemma terminal_after_result_witness :
  wf_board board_x_won /\ terminal board_x_won = Ret true
  /\ exists b', result board_x_won (1, 2) = Ret b'
                /\ terminal b' = Ret true.
Proof.
  assert (Hwf : wf_board board_x_won)
    by (split; [reflexivity|repeat constructor]).
  split; [exact Hwf|]. split; [reflexivity|].
  eexists. split; [reflexivity|].
  exact (terminal_after_result board_x_won (1, 2) _ Hwf eq_refl eq_refl).
Defined.

Lemma reachable_in_reachable (n : nat) (b : board) :
  reachable_in n b -> reachable b.
Proof.
  induction 1 as [|n b a b' _ IH Hres]; [constructor|].
  econstructor; eauto.
Qed.

Lemma reachable_in_occupied (n : nat) (b : board) :
  reachable_in n b -> occupied b = n.
Proof.
  induction 1 as [|n b a b' _ IH Hres]; [reflexivity|].
  now rewrite (result_occupied b a b' Hres), IH.
Qed.

(** X8: after [n] successful calls of [result] from the initial board [n]
    cells are occupied; there are never more than nine such calls, and after
    nine the game is over and [result] throws for every move. *)
Theorem moves_bounded (n : nat) (b : board) :
  reachable_in n b ->
  occupied b = n /\ (n <= 9)%nat
  /\ (n = 9%nat ->
      terminal b = Ret true
      /\ forall a, result b a = Throw InvalidAction).
Proof.
  intros Hr.
  assert (Hwf : wf_board b) by (eapply reachable_wf, reachable_in_reachable; eauto).
  pose proof (reachable_in_occupied n b Hr) as Hocc.
  pose proof (actions_occupied b Hwf) as Hsum.
  split; [exact Hocc|]. split; [lia|]. intros ->.
  assert (Hnil : actions b = [])
    by (destruct (actions b); [reflexivity|simpl in Hsum; lia]).
  split.
  - apply terminal_true_cases; auto.
  - intros [x y].
    destruct (result_wf_cases b x y Hwf) as [(_ & _ & Hres)|[_ Hres]];
      [|exact Hres].
    assert (Hin : In (x, y) (actions b)) by (apply result_accepts; eauto).
    rewrite Hnil in Hin. destruct Hin.
Qed.

Lemma moves_bounded_witness :
  reachable_in 1 [[EMPTY; EMPTY; EMPTY]; [EMPTY; X; EMPTY];
                  [EMPTY; EMPTY; EMPTY]]
  /\ occupied [[EMPTY; EMPTY; EMPTY]; [EMPTY; X; EMPTY];
               [EMPTY; EMPTY; EMPTY]] = 1%nat.
Proof.
  assert (H : reachable_in 1 [[EMPTY; EMPTY; EMPTY]; [EMPTY; X; EMPTY];
                              [EMPTY; EMPTY; EMPTY]])
    by (apply (reach_succ 0 initialState (1, 1)); [constructor|reflexivity]).
  split; [exact H|]. exact (proj1 (moves_bounded _ _ H)).
Defined.

(** X9: called with any window [alpha < beta] on a well-formed board, the
    procedure of the side to play returns a number: the value of the position
    when that value lies strictly inside the window, and otherwise a bound
    of it on the side on which it left the window. *)
Theorem search_window (b : board) (alpha beta : num) :
  wf_board b -> num_lt alpha beta ->
  exists V,
    game_value b = Ret V
    /\ (player b = X ->
        exists r act,
          maxValue (depth b) b alpha beta = Ret (Fin r, act)
          /\ (num_le (Fin r) alpha -> V <= r)
          /\ (num_lt alpha (Fin r) -> num_lt (Fin r) beta -> V = r)
          /\ (num_le beta (Fin r) -> r <= V))
    /\ (player b = O ->
        exists r act,
          minValue (depth b) b alpha beta = Ret (Fin r, act)
          /\ (num_le (Fin r) alpha -> V <= r)
          /\ (num_lt alpha (Fin r) -> num_lt (Fin r) beta -> V = r)
          /\ (num_le beta (Fin r) -> r <= V)).
Proof.
  intros Hwf Hlt.
  destruct (search_spec (length (actions b)) b Hwf eq_refl)
    as (V & HV & Hmax & Hmin).
  exists V. split; [exact HV|]. split; intros Hp.
  - destruct (Hmax Hp alpha beta Hlt) as (r & act & Hrun & Hab & _). eauto.
  - destruct (Hmin Hp alpha beta Hlt) as (r & act & Hrun & Hab & _). eauto.
Qed.

Lemma search_window_witness :
  wf_board board_x_to_win /\ num_lt (Fin (-1)) (Fin 0)
  /\ exists V, game_value board_x_to_win = Ret V.
Proof.
  assert (Hwf : wf_board board_x_to_win)
    by (split; [reflexivity|repeat constructor]).
  split; [exact Hwf|]. split; [simpl; lia|].
  destruct (search_window board_x_to_win (Fin (-1)) (Fin 0) Hwf)
    as (V & HV & _); [simpl; lia|].
  exists V. exact HV.
Defined.

(* ================================================================== *)
(** ** What [drawBoard] puts on the page *)

Lemma wf_board_cells9 (b : board) :
  wf_board b ->
  exists a1 a2 a3 b1 b2 b3 c1 c2 c3,
    b = [[a1; a2; a3]; [b1; b2; b3]; [c1; c2; c3]].
Proof.
  intros [Hlen Hrows].
  destruct b as [|r0 [|r1 [|r2 [|]]]]; try discriminate.
  inversion_clear Hrows as [|? ? H0 Hrows1].
  inversion_clear Hrows1 as [|? ? H1 Hrows2].
  inversion_clear Hrows2 as [|? ? H2 _].
  destruct r0 as [|? [|? [|? [|]]]]; try discriminate.
  destruct r1 as [|? [|? [|? [|]]]]; try discriminate.
  destruct r2 as [|? [|? [|? [|]]]]; try discriminate.
  do 9 eexists. reflexivity.
Qed.

Lemma cell_texts_wf (b : board) :
  wf_board b -> cell_texts b = map (map Val) b.
Proof.
  intros Hwf.
  destruct (wf_board_cells9 b Hwf)
    as (a1 & a2 & a3 & b1 & b2 & b3 & c1 & c2 & c3 & ->).
  reflexivity.
Qed.

(** On a well-formed board the cells that listen are the legal moves. *)
Lemma clickable_wf (b : board) : wf_board b -> clickable b = actions b.
Proof.
  intros Hwf.
  destruct (wf_board_cells9 b Hwf)
    as (a1 & a2 & a3 & b1 & b2 & b3 & c1 & c2 & c3 & ->).
  unfold clickable, actions. cbn [length seq flat_map actions_from].
  rewrite app_nil_r. f_equal; [|f_equal].
  - destruct a1, a2, a3; reflexivity.
  - destruct b1, b2, b3; reflexivity.
  - rewrite app_nil_r. destruct c1, c2, c3; reflexivity.
Qed.

Lemma highlighted_spec (b : board) :
  wf_board b ->
  highlighted b = Ret match winningLine b with
                      | Some (l, _) => l
                      | None => []
                      end.
Proof.
  intros Hwf. unfold highlighted. rewrite winner_run_spec by assumption.
  simpl. now destruct (winningLine b) as [[l m]|].
Qed.

(** [drawBoard] on a well-formed board. *)
Lemma drawBoard_wf (msg : result_text) (b : board) :
  wf_board b ->
  drawBoard msg b
  = Ret match winningLine b with
        | Some (l, m) =>
            (mkScreen (map (map Val) b) (l ++ l ++ l) TurnNone
                      (ResultWon (Val m)) [] b, [])
        | None =>
            if (length (actions b) =? 0)%nat
            then (mkScreen (map (map Val) b) [] TurnNone ResultTie [] b, [])
            else if mark_eqb (player b) O
                 then (mkScreen (map (map Val) b) [] (TurnOf (player b)) msg
                                [] b, [b])
                 else (mkScreen (map (map Val) b) [] (TurnOf (player b)) msg
                                (actions b) b, [])
        end.
Proof.
  intros Hwf. unfold drawBoard, terminal.
  rewrite winner_spec, highlighted_spec, cell_texts_wf, clickable_wf
    by assumption.
  destruct (winningLine b) as [[l m]|] eqn:E.
  - destruct (winningLine_mark b l m E) as [-> | ->]; reflexivity.
  - cbn [bind truthy orb negb app].
    destruct (length (actions b) =? 0)%nat; cbn [negb]; [reflexivity|].
    now destruct (mark_eqb (player b) O).
Qed.

(** X10: [drawBoard] on a well-formed board shows the marks of the board.
    While the game is not over it shows whose turn it is and leaves the result
    text as it was; on the turn of X the cells that listen to clicks are the
    empty ones and no call is scheduled, on the turn of O no cell listens and
    one call is scheduled, for this board.  When the game is over the turn
    text is empty, the result text names the mark of the winning line or says
    that the game is tied, no cell listens and no call is scheduled. *)
Theorem drawBoard_shows (msg : result_text) (b : board) :
  wf_board b ->
  exists scr new,
    drawBoard msg b = Ret (scr, new)
    /\ shown scr = b
    /\ cellText scr = map (map Val) b
    /\ turnText scr = match outcome b with
                      | InProgress => TurnOf (player b)
                      | _ => TurnNone
                      end
    /\ resultText scr = match outcome b with
                        | XWins => ResultWon (Val X)
                        | OWins => ResultWon (Val O)
                        | Draw => ResultTie
                        | InProgress => msg
                        end
    /\ listeners scr = match outcome b, player b with
                       | InProgress, X => actions b
                       | _, _ => []
                       end
    /\ new = match outcome b, player b with
             | InProgress, O => [b]
             | _, _ => []
             end.
Proof.
  intros Hwf. rewrite drawBoard_wf by assumption. unfold outcome.
  destruct (winningLine b) as [[l m]|] eqn:E.
  - destruct (winningLine_mark b l m E) as [-> | ->];
      do 2 eexists; repeat split.
  - destruct (length (actions b) =? 0)%nat.
    + do 2 eexists; repeat split.
    + destruct (player_cases b) as [Hp|Hp]; rewrite Hp;
        do 2 eexists; repeat split.
Qed.

Lemma drawBoard_shows_witness :
  wf_board board_x_to_win
  /\ exists scr new,
       drawBoard ResultNone board_x_to_win = Ret (scr, new)
       /\ shown scr = board_x_to_win.
Proof.
  assert (Hwf : wf_board board_x_to_win)
    by (split; [reflexivity|repeat constructor]).
  split; [exact Hwf|].
  destruct (drawBoard_shows ResultNone board_x_to_win Hwf)
    as (scr & new & H1 & H2 & _).
  exists scr, new. split; assumption.
Defined.

(** X11: the cells highlighted after [drawBoard] has drawn a well-formed
    board are those of the first won line, each highlighted three times, once
    by each call of [winner]; without a won line no cell is highlighted. *)
Theorem drawBoard_highlights (msg : result_text) (b : board) :
  wf_board b ->
  exists scr new,
    drawBoard msg b = Ret (scr, new)
    /\ (forall l m, winningLine b = Some (l, m) ->
                    highlightLog scr = l ++ l ++ l
                    /\ forall c, In c l -> cell_at b c = m)
    /\ (winningLine b = None -> highlightLog scr = []).
Proof.
  intros Hwf. rewrite drawBoard_wf by assumption.
  destruct (winningLine b) as [[l m]|] eqn:E.
  - do 2 eexists. split; [reflexivity|]. split; [|discriminate].
    intros l' m' H. injection H as <- <-. split; [reflexivity|].
    now apply winningLine_Some in E.
  - destruct (length (actions b) =? 0)%nat;
      [|destruct (mark_eqb (player b) O)];
      (do 2 eexists; split; [reflexivity|]; split; [discriminate|reflexivity]).
Qed.

Lemma drawBoard_highlights_witness :
  wf_board board_x_won
  /\ exists scr new,
       drawBoard ResultNone board_x_won = Ret (scr, new)
       /\ highlightLog scr
          = [(0, 0); (0, 1); (0, 2); (0, 0); (0, 1); (0, 2);
             (0, 0); (0, 1); (0, 2)].
Proof.
  assert (Hwf : wf_board board_x_won)
    by (split; [reflexivity|repeat constructor]).
  split; [exact Hwf|].
  destruct (drawBoard_highlights ResultNone board_x_won Hwf)
    as (scr & new & H1 & H2 & _).
  exists scr, new. split; [exact H1|].
  exact (proj1 (H2 [(0, 0); (0, 1); (0, 2)] X eq_refl)).
Defined.

(* ================================================================== *)
(** ** The game that is played on the page *)

Lemma game_value_initial : game_value initialState = Ret 0.
Proof.
  apply game_value_by_max;
    [apply initialState_wf|reflexivity|vm_compute; reflexivity].
Qed.

Lemma safe_initial : safe initialState.
Proof.
  split; [apply initialState_wf|]. exists 0.
  split; [apply game_value_initial|lia].
Qed.

(** A move of X does not raise the value of the position. *)
Lemma safe_after_click (b : board) (a : action) (rb : board) :
  safe b -> terminal b = Ret false -> player b = X ->
  result b a = Ret rb -> safe rb.
Proof.
  intros [Hwf (v & Hv & Hle)] Ht Hp Hres.
  split; [eapply result_wf; eauto|].
  destruct (best_move_optimal b Hwf Ht) as (a0 & v0 & _ & _ & _ & Hv0 & Hall).
  assert (v0 = v) by congruence. subst v0.
  assert (Hin : In a (actions b)) by (apply result_accepts; eauto).
  pose proof (move_value_cvalue b a Hwf Hin) as Hmv.
  destruct (Hall a _ Hmv) as [HX _]. specialize (HX Hp).
  unfold move_value in Hmv. rewrite Hres in Hmv. simpl in Hmv.
  eexists. split; [exact Hmv|lia].
Qed.

(** The move of [minimax] keeps the value of the position. *)
Lemma safe_after_minimax (b : board) :
  safe b -> terminal b = Ret false ->
  exists a rb, minimax b = Ret (Val a) /\ result b a = Ret rb /\ safe rb.
Proof.
  intros [Hwf (v & Hv & Hle)] Ht.
  destruct (best_move_optimal b Hwf Ht) as (a & v0 & Hrun & Hin & Hmv & Hv0 & _).
  assert (v0 = v) by congruence. subst v0.
  apply result_accepts in Hin as [rb Hres]; [|assumption].
  exists a, rb. split; [exact Hrun|]. split; [exact Hres|].
  split; [eapply result_wf; eauto|].
  unfold move_value in Hmv. rewrite Hres in Hmv. simpl in Hmv. eauto.
Qed.

(** On a safe board the first won line, if any, is not of X. *)
Lemma safe_no_x_line (b : board) (l : list action) :
  safe b -> winningLine b <> Some (l, X).
Proof.
  intros [Hwf (v & Hv & Hle)] E.
  assert (Ht : terminal b = Ret true)
    by (apply terminal_true_cases; [assumption|left; congruence]).
  rewrite (game_value_terminal b Hwf Ht) in Hv. injection Hv as <-.
  unfold outcome in Hle. rewrite E in Hle. simpl in Hle. lia.
Qed.

Lemma existsb_action_In (a : action) (l : list action) :
  existsb (action_eqb a) l = true -> In a l.
Proof.
  intros H. apply existsb_exists in H as ([x y] & Hin & Heq).
  unfold action_eqb in Heq. simpl in Heq.
  apply andb_true_iff in Heq as [Hx Hy].
  apply Z.eqb_eq in Hx, Hy. destruct a as [x' y']. simpl in *. now subst.
Qed.

Lemma remove_nth_Forall {A : Type} (P : A -> Prop) (n : nat) (l : list A) :
  Forall P l -> Forall P (remove_nth n l).
Proof.
  intros H. revert n.
  induction H as [|a l Ha Hl IH]; intros [|n]; simpl; auto.
Qed.

(** Drawing a safe board that legal play reaches gives a page that is in
    order. *)
Lemma draw_page_ok (msg : result_text) (b : board) (pending : list board) :
  safe b -> legal_play b -> msg <> ResultWon (Val X) ->
  Forall (fun b => safe b /\ legal_play b
                   /\ terminal b = Ret false /\ player b = O) pending ->
  exists d, drawBoard msg b = Ret d
            /\ page_ok (mkPage (fst d) (pending ++ snd d)).
Proof.
  intros Hsafe Hplay Hmsg Hpending.
  pose proof Hsafe as [Hwf _].
  rewrite drawBoard_wf by assumption.
  eexists. split; [reflexivity|].
  unfold page_ok.
  destruct (winningLine b) as [[l m]|] eqn:E; cbn [fst snd display timers].
  - rewrite app_nil_r. cbn [shown listeners resultText].
    split; [exact Hsafe|]. split; [exact Hplay|].
    split; [congruence|]. split; [|exact Hpending].
    intros H. injection H as ->. now apply (safe_no_x_line b l Hsafe).
  - destruct (length (actions b) =? 0)%nat eqn:Hlen;
      cbn [fst snd display timers].
    + rewrite app_nil_r. cbn [shown listeners resultText].
      split; [exact Hsafe|]. split; [exact Hplay|].
      split; [congruence|]. split; [discriminate|exact Hpending].
    + assert (Ht : terminal b = Ret false).
      { rewrite terminal_spec by assumption. unfold outcome.
        now rewrite E, Hlen. }
      destruct (mark_eqb (player b) O) eqn:Hp;
        cbn [fst snd display timers shown listeners resultText].
      * apply mark_eqb_eq in Hp.
        split; [exact Hsafe|]. split; [exact Hplay|].
        split; [congruence|]. split; [exact Hmsg|].
        apply Forall_app. split; [exact Hpending|].
        constructor; [|constructor]. auto.
      * rewrite app_nil_r.
        split; [exact Hsafe|]. split; [exact Hplay|].
        split; [|split; [exact Hmsg|exact Hpending]].
        intros _. split; [exact Ht|]. split; [|reflexivity].
        destruct (player_cases b) as [Hx|Ho]; [exact Hx|].
        rewrite Ho in Hp. discriminate.
Qed.

(** Every handler, run on a page that is in order, returns and leaves a page
    that is in order. *)
Lemma step_page_ok (p : page) (e : event) :
  page_ok p -> exists p', step p e = Ret p' /\ page_ok p'.
Proof.
  intros Hok. pose proof Hok as (Hsafe & Hplay & Hlisten & Hmsg & Htimers).
  destruct e as [a|n|]; cbn [step].
  - destruct (existsb (action_eqb a) (listeners (display p))) eqn:Hex;
      [|eauto].
    apply existsb_action_In in Hex.
    destruct Hlisten as (Ht & Hp & Heq);
      [intros E; rewrite E in Hex; destruct Hex|].
    rewrite Heq in Hex.
    destruct Hsafe as [Hwf Hval].
    apply result_accepts in Hex as [rb Hres]; [|assumption].
    rewrite Hres.
    destruct (draw_page_ok (resultText (display p)) rb (timers p))
      as (d & Hd & Hok'); auto.
    + eapply safe_after_click; eauto. split; assumption.
    + econstructor; eauto.
    + rewrite Hd. cbn [bind]. eauto.
  - destruct (nth_error (timers p) n) as [tb|] eqn:Hn; [|eauto].
    rewrite Forall_forall in Htimers.
    destruct (Htimers tb (nth_error_In _ _ Hn)) as (Hs & Hl & Ht & Hp).
    destruct (safe_after_minimax tb Hs Ht) as (a & rb & Hrun & Hres & Hsafe').
    rewrite Hrun. cbn [bind]. rewrite Hres. cbn [bind].
    destruct (draw_page_ok (resultText (display p)) rb
                (remove_nth n (timers p))) as (d & Hd & Hok'); auto.
    + econstructor; eauto.
    + apply remove_nth_Forall, Forall_forall. exact Htimers.
    + rewrite Hd. cbn [bind]. eauto.
  - unfold startGame.
    assert (Hnone : ResultNone <> ResultWon (Val X)) by discriminate.
    destruct (draw_page_ok ResultNone initialState (timers p)
                safe_initial play_init Hnone Htimers) as (d & Hd & Hok').
    rewrite Hd. cbn [bind]. eauto.
Qed.

Lemma running_page_ok (p : page) : running p -> page_ok p.
Proof.
  induction 1 as [p Hstart|p e p' _ IH Hstep].
  - unfold startGame in Hstart.
    assert (Hnone : ResultNone <> ResultWon (Val X)) by discriminate.
    destruct (draw_page_ok ResultNone initialState []
                safe_initial play_init Hnone (Forall_nil _)) as (d & Hd & Hok).
    rewrite Hd in Hstart. cbn [bind] in Hstart. now injection Hstart as <-.
  - destruct (step_page_ok p e IH) as (p'' & Hstep' & Hok).
    rewrite Hstep in Hstep'. now injection Hstep' as <-.
Qed.

Lemma startGame_runs : exists p, startGame [] = Ret p.
Proof.
  unfold startGame.
  assert (Hnone : ResultNone <> ResultWon (Val X)) by discriminate.
  destruct (draw_page_ok ResultNone initialState []
              safe_initial play_init Hnone (Forall_nil _)) as (d & Hd & _).
  rewrite Hd. cbn [bind]. eauto.
Qed.

Lemma legal_play_line_mark (b : board) (m : mark) :
  legal_play b -> m <> EMPTY -> three_in_line b m ->
  exists l, winningLine b = Some (l, m).
Proof.
  intros Hplay Hm H. apply three_in_line_iff in H as (l0 & Hl0 & Hall0).
  pose proof (legal_play_line b l0 m Hplay Hl0 Hm Hall0) as Hm0.
  destruct (winningLine b) as [[l m']|] eqn:E.
  - apply winningLine_Some in E as (Hl & Hm' & Hall).
    pose proof (legal_play_line b l m' Hplay Hl Hm' Hall). exists l. congruence.
  - pose proof (winningLine_None b l0 E Hl0) as Hno.
    assert (Hyes : line_won b l0 = true).
    { apply line_won_iff. split; [now apply winningConditions_nonempty|eauto]. }
    congruence.
Qed.

(** X12: the script starts, and from then on every handler returns: no
    click, no scheduled call and no reset ends in an exception.  A cell that
    listens to clicks is an empty cell of the board on the page, on which
    [result] makes the move, so that the listener never comes to catch an
    error; and the board of a scheduled call has a move for [minimax] to
    return. *)
Theorem handlers_return (p : page) :
  running p ->
  (forall e, exists p', step p e = Ret p' /\ running p')
  /\ (forall a, In a (listeners (display p)) ->
                exists rb, result (shown (display p)) a = Ret rb)
  /\ (forall b, In b (timers p) ->
                exists a rb, minimax b = Ret (Val a) /\ result b a = Ret rb).
Proof.
  intros Hrun. pose proof (running_page_ok p Hrun)
    as (Hsafe & Hplay & Hlisten & Hmsg & Htimers).
  split; [|split].
  - intros e.
    destruct (step_page_ok p e (running_page_ok p Hrun)) as (p' & Hstep & _).
    exists p'. split; [exact Hstep|]. exact (run_step p e p' Hrun Hstep).
  - intros a Ha.
    destruct Hlisten as (_ & _ & Heq);
      [intros E; rewrite E in Ha; destruct Ha|].
    rewrite Heq in Ha. apply result_accepts; [apply Hsafe|exact Ha].
  - intros b Hb. rewrite Forall_forall in Htimers.
    destruct (Htimers b Hb) as (Hs & _ & Ht & _).
    destruct (safe_after_minimax b Hs Ht) as (a & rb & H1 & H2 & _). eauto.
Qed.

Lemma start_page_running : running start_page.
Proof. apply run_start. reflexivity. Qed.

Lemma run_running (es : list event) :
  forall p p', running p -> run p es = Ret p' -> running p'.
Proof.
  induction es as [|e rest IH]; intros p p' Hrun H; simpl in H.
  - now injection H as <-.
  - destruct (step p e) as [p1| |] eqn:Hstep; cbn [bind] in H;
      try discriminate.
    apply (IH p1 p'); [|exact H]. exact (run_step p e p1 Hrun Hstep).
Qed.

Lemma first_click : step start_page (Click (1, 1)) = Ret page_after_click.
Proof. vm_compute. reflexivity. Qed.

Lemma first_reply : step page_after_click (Timer 0) = Ret page_after_reply.
Proof. vm_compute. reflexivity. Qed.

Lemma played_game_ends : run start_page played_game = Ret page_after_game.
Proof. vm_compute. reflexivity. Qed.

Lemma page_after_click_running : running page_after_click.
Proof. exact (run_step _ _ _ start_page_running first_click). Qed.

Lemma page_after_reply_running : running page_after_reply.
Proof. exact (run_step _ _ _ page_after_click_running first_reply). Qed.

Lemma page_after_game_running : running page_after_game.
Proof. exact (run_running _ _ _ start_page_running played_game_ends). Qed.

Lemma handlers_return_witness :
  running start_page /\ exists p', step start_page (Click (1, 1)) = Ret p'.
Proof.
  split; [exact start_page_running|].
  destruct (proj1 (handlers_return start_page start_page_running)
              (Click (1, 1))) as (p' & H & _).
  exists p'. exact H.
Defined.

(** X13: whatever the clicks, and whenever the scheduled calls and the resets
    come, the side of X never wins: no page of the running script shows a
    board with a line of three X, and the result text never says that X has
    won. *)
Theorem x_never_wins (p : page) :
  running p ->
  resultText (display p) <> ResultWon (Val X)
  /\ winner (shown (display p)) <> Ret (Val X)
  /\ ~ three_in_line (shown (display p)) X
  /\ outcome (shown (display p)) <> XWins.
Proof.
  intros Hrun. pose proof (running_page_ok p Hrun)
    as (Hsafe & Hplay & _ & Hmsg & _).
  pose proof Hsafe as [Hwf _].
  assert (Hw : winner (shown (display p)) <> Ret (Val X)).
  { rewrite winner_spec by assumption.
    destruct (winningLine (shown (display p))) as [[l m]|] eqn:E;
      [|discriminate].
    intros H. injection H as ->. now apply (safe_no_x_line _ l Hsafe). }
  split; [exact Hmsg|]. split; [exact Hw|]. split.
  - intros H3.
    destruct (legal_play_line_mark (shown (display p)) X Hplay
                ltac:(discriminate) H3) as [l E].
    now apply (safe_no_x_line _ l Hsafe).
  - unfold outcome.
    destruct (winningLine (shown (display p))) as [[l m]|] eqn:E.
    + destruct m; [|exfalso; now apply (safe_no_x_line _ l Hsafe)|discriminate].
      now destruct (length (actions (shown (display p))) =? 0)%nat.
    + now destruct (length (actions (shown (display p))) =? 0)%nat.
Qed.

Lemma x_never_wins_witness :
  running page_after_game
  /\ run start_page played_game = Ret page_after_game
  /\ shown (display page_after_game) = board_o_won
  /\ resultText (display page_after_game) = ResultWon (Val O)
  /\ winner board_o_won <> Ret (Val X)
  /\ ~ three_in_line board_o_won X
  /\ outcome board_o_won <> XWins.
Proof.
  split; [exact page_after_game_running|].
  split; [exact played_game_ends|].
  split; [reflexivity|]. split; [reflexivity|].
  exact (proj2 (x_never_wins page_after_game page_after_game_running)).
Defined.

(** X14: every board on a page of the running script has been reached by
    legal play.  Cells listen to clicks only while the game is not over and it
    is the turn of X, and then all the empty cells do; a call is scheduled
    only for a board on which the game is not over and it is the turn of O:
    the clicks place the marks of X and [minimax] those of O. *)
Theorem turns_on_page (p : page) :
  running p ->
  legal_play (shown (display p))
  /\ (listeners (display p) <> [] ->
      terminal (shown (display p)) = Ret false
      /\ player (shown (display p)) = X
      /\ listeners (display p) = actions (shown (display p)))
  /\ (forall b, In b (timers p) ->
                legal_play b /\ terminal b = Ret false /\ player b = O).
Proof.
  intros Hrun. pose proof (running_page_ok p Hrun)
    as (_ & Hplay & Hlisten & _ & Htimers).
  split; [exact Hplay|]. split; [exact Hlisten|].
  intros b Hb. rewrite Forall_forall in Htimers.
  destruct (Htimers b Hb) as (_ & H1 & H2 & H3). auto.
Qed.

Lemma turns_on_page_witness :
  running start_page
  /\ legal_play (shown (display start_page))
  /\ player (shown (display start_page)) = X.
Proof.
  split; [exact start_page_running|].
  destruct (turns_on_page start_page start_page_running) as (H1 & H2 & _).
  split; [exact H1|]. apply H2. discriminate.
Defined.

Lemma drawBoard_shown (msg : result_text) (b : board)
  (d : screen * list board) :
  wf_board b -> drawBoard msg b = Ret d -> shown (fst d) = b.
Proof.
  intros Hwf H. rewrite drawBoard_wf in H by assumption.
  injection H as <-.
  destruct (winningLine b) as [[l m]|]; [reflexivity|].
  destruct (length (actions b) =? 0)%nat; [reflexivity|].
  now destruct (mark_eqb (player b) O).
Qed.

(** X15: a click on the reset button draws the initial board and clears the
    result text, but cancels no scheduled call.  When such a call comes due
    afterwards it draws, over the new game, the board of the old game after
    the move of [minimax]. *)
Theorem reset_keeps_scheduled_calls (p : page) :
  running p ->
  exists p',
    step p Reset = Ret p'
    /\ display p' = display start_page
    /\ timers p' = timers p
    /\ forall n b, nth_error (timers p) n = Some b ->
         exists a rb p'',
           minimax b = Ret (Val a) /\ result b a = Ret rb
           /\ step p' (Timer n) = Ret p''
           /\ shown (display p'') = rb
           /\ rb <> initialState.
Proof.
  intros Hrun. pose proof (running_page_ok p Hrun)
    as (_ & _ & _ & _ & Htimers).
  exists (mkPage (display start_page) (timers p)).
  split; [cbn [step]; unfold startGame;
          change (drawBoard ResultNone initialState)
            with (Ret (display start_page, @nil board));
          cbn [bind fst snd]; now rewrite app_nil_r|].
  split; [reflexivity|]. split; [reflexivity|].
  intros n b Hn. rewrite Forall_forall in Htimers.
  destruct (Htimers b (nth_error_In _ _ Hn)) as (Hs & _ & Ht & _).
  destruct (safe_after_minimax b Hs Ht) as (a & rb & Hmm & Hres & [Hwf' _]).
  pose proof (drawBoard_wf ResultNone rb Hwf') as Hd.
  remember (match winningLine rb with
            | Some (l, m) => _
            | None => _
            end) as d eqn:Hdef in Hd.
  clear Hdef. pose proof (drawBoard_shown ResultNone rb d Hwf' Hd) as Hsh.
  exists a, rb, (mkPage (fst d) (remove_nth n (timers p) ++ snd d)).
  split; [exact Hmm|]. split; [exact Hres|].
  cbn [step timers display]. rewrite Hn, Hmm. cbn [bind].
  rewrite Hres. cbn [bind].
  change (resultText (display start_page)) with ResultNone.
  rewrite Hd. cbn [bind]. split; [reflexivity|].
  split; [exact Hsh|].
  intros E. apply result_occupied in Hres. rewrite E in Hres. discriminate.
Qed.

Lemma reset_keeps_scheduled_calls_witness :
  running page_after_click
  /\ timers page_after_click = [board_centre]
  /\ exists p',
       step page_after_click Reset = Ret p'
       /\ display p' = display start_page
       /\ timers p' = [board_centre]
       /\ exists a rb p'',
            minimax board_centre = Ret (Val a)
            /\ result board_centre a = Ret rb
            /\ step p' (Timer 0) = Ret p''
            /\ shown (display p'') = rb
            /\ rb <> initialState.
Proof.
  split; [exact page_after_click_running|]. split; [reflexivity|].
  destruct (reset_keeps_scheduled_calls page_after_click
              page_after_click_running) as (p' & H1 & H2 & H3 & H4).
  exists p'. split; [exact H1|]. split; [exact H2|]. split; [exact H3|].
  exact (H4 0%nat board_centre eq_refl).
Defined.

(** X16: a click changes nothing when the game on the page is over, when it
    is the turn of O, or when the cell is not empty. *)
Theorem click_ignored (p : page) (a : action) :
  running p ->
  terminal (shown (display p)) = Ret true
  \/ player (shown (display p)) = O
  \/ ~ In a (actions (shown (display p))) ->
  step p (Click a) = Ret p.
Proof.
  intros Hrun Hcase. pose proof (running_page_ok p Hrun)
    as (_ & _ & Hlisten & _).
  cbn [step].
  destruct (existsb (action_eqb a) (listeners (display p))) eqn:Hex;
    [|reflexivity].
  apply existsb_action_In in Hex.
  destruct Hlisten as (Ht & Hp & Heq);
    [intros E; rewrite E in Hex; destruct Hex|].
  rewrite Heq in Hex.
  destruct Hcase as [H|[H|H]]; [congruence|congruence|contradiction].
Qed.

Lemma click_ignored_witness :
  running page_after_game /\ running page_after_click
  /\ running page_after_reply
  /\ terminal (shown (display page_after_game)) = Ret true
  /\ step page_after_game (Click (1, 2)) = Ret page_after_game
  /\ player (shown (display page_after_click)) = O
  /\ step page_after_click (Click (0, 0)) = Ret page_after_click
  /\ ~ In (1, 1) (actions (shown (display page_after_reply)))
  /\ step page_after_reply (Click (1, 1)) = Ret page_after_reply.
Proof.
  assert (Hocc : ~ In (1, 1) (actions (shown (display page_after_reply))))
    by (simpl; intuition discriminate).
  split; [exact page_after_game_running|].
  split; [exact page_after_click_running|].
  split; [exact page_after_reply_running|].
  split; [reflexivity|]. split.
  { apply (click_ignored page_after_game (1, 2) page_after_game_running).
    left. reflexivity. }
  split; [reflexivity|]. split.
  { apply (click_ignored page_after_click (0, 0) page_after_click_running).
    right. left. reflexivity. }
  split; [exact Hocc|].
  apply (click_ignored page_after_reply (1, 1) page_after_reply_running).
  right. right. exact Hocc.
Defined.
